(** * PyExecutable: registry links, dispatch options and execution entry points

    A shallow embedding of [tensorflow/compiler/xla/python/py_executable.cc].

    Objects live in a store indexed by address.  A [PyExecutable] is a record
    of its members; the intrusive links [prev_] and [next_] and the client's
    head pointer [executables_] are nullable addresses.  Every member function
    is a computation in a small state-and-failure monad: dereferencing an
    address that holds no object is undefined behaviour, a failed [CHECK]
    aborts.  The native engine ([PjRtExecutable]), the stack capture
    ([Traceback::Get]) and the hash ([tensorflow::Fingerprint32]) are external
    collaborators and are taken as the fields of the class [Runtime]. *)

From stdpp Require Import base option list gmap strings.
From Stdlib Require Import ZArith Lia.

Set Default Proof Using "Type".

(** ** Addresses and values *)

Definition addr := positive.

(** A raw pointer: [None] is [nullptr]. *)
Definition ptr := option addr.
Definition nullptr : ptr := None.

(** [ExecuteOptions], as far as this file touches it.  The struct is declared
    with the engine, outside this file; the two members that the constructor
    assigns are kept.  [launch_id] is a signed 32-bit member. *)
Record ExecuteOptions := {
  untuple_result : bool;
  launch_id : Z
}.

Definition set_untuple_result (b : bool) (o : ExecuteOptions) : ExecuteOptions :=
  {| untuple_result := b; launch_id := launch_id o |}.

Definition set_launch_id (z : Z) (o : ExecuteOptions) : ExecuteOptions :=
  {| untuple_result := untuple_result o; launch_id := z |}.

(** The conversion of an unsigned 32-bit value to a signed 32-bit one, as an
    assignment of a [uint32] to an [int32] member performs it: the 32 bits are
    kept, so the values from [2 ^ 31] on become negative. *)
Definition int32_of_uint32 (z : Z) : Z :=
  if (z <? 2 ^ 31)%Z then z else (z - 2 ^ 32)%Z.

Inductive StatusOr (S A : Type) : Type :=
  | OkValue (a : A)
  | NotOk (s : S).
Arguments OkValue {S A} a.
Arguments NotOk {S A} s.

(** How a member function ends: it returns, a [CHECK] aborts the process, or
    the behaviour is undefined. *)
Inductive outcome (A : Type) : Type :=
  | Ret (a : A)
  | CheckFailure
  | Undefined.
Arguments Ret {A} a.
Arguments CheckFailure {A}.
Arguments Undefined {A}.

(** The collaborators that are declared outside this translation unit.
    [Fingerprint32] returns an unsigned 32-bit integer; a default-constructed
    [ExecuteOptions] is [ExecuteOptions_default]; [WrapWithClient] builds a
    [ClientAndPtr] from a client and a device pointer. *)
Class Runtime := {
  World : Type;
  Traceback : Type;
  Status : Type;
  HloModule : Type;
  ClientAndPtr : Type;
  Fingerprint32 : string → Z;
  Fingerprint32_uint32 : ∀ s, (0 ≤ Fingerprint32 s < 2 ^ 32)%Z;
  ExecuteOptions_default : ExecuteOptions;
  Traceback_Get : World → Traceback * World;
  WrapWithClient : addr → ptr → ClientAndPtr
}.

Section WithRuntime.
Context `{RT : Runtime}.

(** The engine-side compiled program: its methods may read and change the
    state of the devices, [World]. *)
Record PjRtExecutable := {
  name : string;
  local_devices : list ptr;
  Execute :
    list ptr → ExecuteOptions → World → StatusOr Status (list ptr) * World;
  ExecuteOnLocalDevices :
    list (list ptr) → ExecuteOptions → World →
    StatusOr Status (list (list ptr)) * World;
  GetHloModules : StatusOr Status (list HloModule)
}.

(** Modelled from the spec: [PyBuffer] is declared in py_buffer.h, which is
    not among the sources; the spec describes a buffer handle as wrapping one
    native device buffer plus the client and a traceback. *)
Record PyBuffer := {
  pb_client : addr;
  buffer : ptr;
  traceback : Traceback
}.

Record PyClient := {
  executables_ : ptr
}.

Record PyExecutable := {
  client_ : addr;
  executable_ : PjRtExecutable;
  traceback_ : Traceback;
  fingerprint_ : option string;
  options_ : ExecuteOptions;
  prev_ : ptr;
  next_ : ptr
}.

Definition set_options (o : ExecuteOptions) (e : PyExecutable) : PyExecutable :=
  {| client_ := client_ e; executable_ := executable_ e;
     traceback_ := traceback_ e; fingerprint_ := fingerprint_ e;
     options_ := o; prev_ := prev_ e; next_ := next_ e |}.

Definition set_prev (p : ptr) (e : PyExecutable) : PyExecutable :=
  {| client_ := client_ e; executable_ := executable_ e;
     traceback_ := traceback_ e; fingerprint_ := fingerprint_ e;
     options_ := options_ e; prev_ := p; next_ := next_ e |}.

Definition set_next (p : ptr) (e : PyExecutable) : PyExecutable :=
  {| client_ := client_ e; executable_ := executable_ e;
     traceback_ := traceback_ e; fingerprint_ := fingerprint_ e;
     options_ := options_ e; prev_ := prev_ e; next_ := p |}.

Definition set_executables (p : ptr) (c : PyClient) : PyClient :=
  {| executables_ := p |}.

(** ** The store *)

Record state := {
  gil : bool;
  clients : gmap addr PyClient;
  execs : gmap addr PyExecutable;
  world : World
}.

Definition with_gil (b : bool) (σ : state) : state :=
  {| gil := b; clients := clients σ; execs := execs σ; world := world σ |}.

Definition with_clients (m : gmap addr PyClient) (σ : state) : state :=
  {| gil := gil σ; clients := m; execs := execs σ; world := world σ |}.

Definition with_execs (m : gmap addr PyExecutable) (σ : state) : state :=
  {| gil := gil σ; clients := clients σ; execs := m; world := world σ |}.

Definition with_world (w : World) (σ : state) : state :=
  {| gil := gil σ; clients := clients σ; execs := execs σ; world := w |}.

(** ** The monad of member functions *)

Definition M (A : Type) : Type := state → outcome (A * state).

Definition ret {A} (a : A) : M A := λ σ, Ret (a, σ).

Definition bind {A B} (m : M A) (k : A → M B) : M B :=
  λ σ, match m σ with
       | Ret (a, σ') => k a σ'
       | CheckFailure => CheckFailure
       | Undefined => Undefined
       end.

Notation "x ←← m ; k" := (bind m (λ x, k))
  (at level 100, m at next level, right associativity).
Notation "m ;;; k" := (bind m (λ _, k))
  (at level 100, right associativity).

(** [CHECK(PyGILState_Check())] *)
Definition CHECK_PyGILState : M unit :=
  λ σ, if gil σ then Ret (tt, σ) else CheckFailure.

(** [py::gil_scoped_release]: the lock is given up when the guard is built
    and taken back when its scope ends, on every path out of the scope. *)
Definition gil_release : M unit := λ σ, Ret (tt, with_gil false σ).
Definition gil_acquire : M unit := λ σ, Ret (tt, with_gil true σ).

Definition load_exec (p : addr) : M PyExecutable :=
  λ σ, match execs σ !! p with
       | Some e => Ret (e, σ)
       | None => Undefined
       end.

Definition modify_exec (p : addr) (f : PyExecutable → PyExecutable) : M unit :=
  λ σ, match execs σ !! p with
       | Some e => Ret (tt, with_execs (<[p := f e]> (execs σ)) σ)
       | None => Undefined
       end.

Definition load_client (c : addr) : M PyClient :=
  λ σ, match clients σ !! c with
       | Some cl => Ret (cl, σ)
       | None => Undefined
       end.

Definition modify_client (c : addr) (f : PyClient → PyClient) : M unit :=
  λ σ, match clients σ !! c with
       | Some cl => Ret (tt, with_clients (<[c := f cl]> (clients σ)) σ)
       | None => Undefined
       end.

(** The storage at [p] starts to hold an object, or stops holding one. *)
Definition begin_lifetime (p : addr) (e : PyExecutable) : M unit :=
  λ σ, Ret (tt, with_execs (<[p := e]> (execs σ)) σ).

Definition end_lifetime (p : addr) : M unit :=
  λ σ, Ret (tt, with_execs (delete p (execs σ)) σ).

(** A call into the engine or into the interpreter's stack capture. *)
Definition in_world {A} (f : World → A * World) : M A :=
  λ σ, let '(a, w) := f (world σ) in Ret (a, with_world w σ).

(** ** Constructor and destructor *)

(** [PyExecutable::PyExecutable].  The member initialisers run first; [prev_]
    and [next_] have no initialiser and are assigned in the body before they
    are read, so the value they start with is immaterial.  The hash is an
    unsigned 32-bit value and is converted to the signed member it is
    assigned to.  The [VLOG] statement only writes to the log. *)
Definition PyExecutable_ctor (this client : addr) (executable : PjRtExecutable)
    (traceback : Traceback) (fingerprint : option string) : M unit :=
  begin_lifetime this
    {| client_ := client; executable_ := executable;
       traceback_ := traceback; fingerprint_ := fingerprint;
       options_ := ExecuteOptions_default;
       prev_ := nullptr; next_ := nullptr |} ;;;
  CHECK_PyGILState ;;;
  self ←← load_exec this ;
  c ←← load_client (client_ self) ;
  modify_exec this (set_next (executables_ c)) ;;;
  modify_client (client_ self) (set_executables (Some this)) ;;;
  modify_exec this (set_prev nullptr) ;;;
  self ←← load_exec this ;
  match next_ self with
  | Some n => modify_exec n (set_prev (Some this))
  | None => ret tt
  end ;;;
  modify_exec this (λ e, set_options (set_untuple_result true (options_ e)) e) ;;;
  self ←← load_exec this ;
  match fingerprint_ self with
  | Some fp =>
      modify_exec this
        (λ e, set_options
                (set_launch_id (int32_of_uint32 (Fingerprint32 fp)) (options_ e))
                e)
  | None => ret tt
  end.

(** [PyExecutable::~PyExecutable] *)
Definition PyExecutable_dtor (this : addr) : M unit :=
  CHECK_PyGILState ;;;
  self ←← load_exec this ;
  c ←← load_client (client_ self) ;
  (if decide (executables_ c = Some this)
   then modify_client (client_ self) (set_executables (next_ self))
   else ret tt) ;;;
  self ←← load_exec this ;
  match prev_ self with
  | Some p => modify_exec p (set_next (next_ self))
  | None => ret tt
  end ;;;
  self ←← load_exec this ;
  match next_ self with
  | Some n => modify_exec n (set_prev (prev_ self))
  | None => ret tt
  end.

(** Destroying an executable: the destructor body, then the object is gone. *)
Definition PyExecutable_delete (this : addr) : M unit :=
  PyExecutable_dtor this ;;;
  end_lifetime this.

(** [new PyExecutable(...)]: the allocator hands out storage that holds no
    live object, then the constructor runs on it.  Storage that is still
    occupied is never handed out, so such a step is no behaviour of a
    program. *)
Definition new_PyExecutable (this client : addr) (executable : PjRtExecutable)
    (traceback : Traceback) (fingerprint : option string) : M unit :=
  λ σ, match execs σ !! this with
       | None => PyExecutable_ctor this client executable traceback fingerprint σ
       | Some _ => Undefined
       end.

(** ** Accessors *)

(** [PyExecutable::LocalDevices] *)
Definition PyExecutable_LocalDevices (this : addr) : M (list ClientAndPtr) :=
  self ←← load_exec this ;
  ret (fold_left
         (λ devices device, devices ++ [WrapWithClient (client_ self) device])
         (local_devices (executable_ self)) []).

(** [PyExecutable::HloModules] *)
Definition PyExecutable_HloModules (this : addr)
    : M (StatusOr Status (list HloModule)) :=
  self ←← load_exec this ;
  ret (GetHloModules (executable_ self)).

(** ** Execution *)

(** [absl::c_transform(src, dst.begin(), f)]: the image of the [k]-th element
    of [src] is written to position [i + k] of [dst]. *)
Fixpoint c_transform {A B} (f : A → B) (src : list A) (i : nat) (dst : list B)
    : list B :=
  match src with
  | [] => dst
  | x :: src' => c_transform f src' (S i) (<[i := f x]> dst)
  end.

(** Lines 92-94: a vector of [args.size()] null pointers, filled in place.
    An argument [PyBuffer*] is modelled by the handle it points to. *)
Definition arg_buffers_of (args : list PyBuffer) : list ptr :=
  c_transform buffer args 0 (replicate (length args) nullptr).

(** Lines 114-119: one row per computation, resized and filled in place.
    The counter stays below [args.size()], so each subscript is in range. *)
Definition nested_arg_buffers_of (args : list (list PyBuffer)) : list (list ptr) :=
  fold_left
    (λ arg_buffers computation,
       let arg_buffers :=
         alter (resize (length (args !!! computation)) nullptr)
               computation arg_buffers in
       alter (c_transform buffer (args !!! computation) 0)
             computation arg_buffers)
    (seq 0 (length args))
    (replicate (length args) []).

(** The loop that wraps the outputs of one computation (lines 78-83 and
    99-104). *)
Definition wrap_outputs (client : addr) (tb : Traceback)
    (output_buffers : list ptr) : list PyBuffer :=
  fold_left
    (λ outputs b,
       outputs ++ [{| pb_client := client; buffer := b; traceback := tb |}])
    output_buffers [].

(** Lines 124-132: [outputs] is resized to one empty row per computation and
    every wrapped buffer is pushed onto the row of its computation. *)
Definition wrap_nested_outputs (client : addr) (tb : Traceback)
    (output_buffers : list (list ptr)) : list (list PyBuffer) :=
  fold_left
    (λ outputs computation,
       fold_left
         (λ outputs b,
            alter (λ row, row ++ [{| pb_client := client; buffer := b;
                                     traceback := tb |}])
                  computation outputs)
         (output_buffers !!! computation) outputs)
    (seq 0 (length output_buffers))
    (replicate (length output_buffers) []).

(** [PyExecutable::PjRtExecute].  [TF_ASSIGN_OR_RETURN] leaves the function
    with the engine's status when the call fails; the guard's scope ends
    either way. *)
Definition PyExecutable_PjRtExecute (this : addr) (args : list ptr)
    : M (StatusOr Status (list PyBuffer)) :=
  gil_release ;;;
  self ←← load_exec this ;
  r ←← in_world (Execute (executable_ self) args (options_ self)) ;
  gil_acquire ;;;
  match r with
  | NotOk s => ret (NotOk s)
  | OkValue output_buffers =>
      tb ←← in_world Traceback_Get ;
      self ←← load_exec this ;
      ret (OkValue (wrap_outputs (client_ self) tb output_buffers))
  end.

(** [PyExecutable::Execute] *)
Definition PyExecutable_Execute (this : addr) (args : list PyBuffer)
    : M (StatusOr Status (list PyBuffer)) :=
  gil_release ;;;
  let arg_buffers := arg_buffers_of args in
  self ←← load_exec this ;
  r ←← in_world (Execute (executable_ self) arg_buffers (options_ self)) ;
  gil_acquire ;;;
  match r with
  | NotOk s => ret (NotOk s)
  | OkValue output_buffers =>
      tb ←← in_world Traceback_Get ;
      self ←← load_exec this ;
      ret (OkValue (wrap_outputs (client_ self) tb output_buffers))
  end.

(** [PyExecutable::ExecuteOnLocalDevices] *)
Definition PyExecutable_ExecuteOnLocalDevices (this : addr)
    (args : list (list PyBuffer))
    : M (StatusOr Status (list (list PyBuffer))) :=
  gil_release ;;;
  let arg_buffers := nested_arg_buffers_of args in
  self ←← load_exec this ;
  r ←← in_world
        (ExecuteOnLocalDevices (executable_ self) arg_buffers (options_ self)) ;
  gil_acquire ;;;
  match r with
  | NotOk s => ret (NotOk s)
  | OkValue output_buffers =>
      tb ←← in_world Traceback_Get ;
      self ←← load_exec this ;
      ret (OkValue (wrap_nested_outputs (client_ self) tb output_buffers))
  end.

(** ** Reading a registry *)

(** Modelled from the spec: the walk over a client's executables is code of
    the client, which is not in this file; the spec reads a registry from the
    head along [next_] until [nullptr].  The result is [None] when the walk
    meets storage that holds no object or does not end within [fuel] nodes. *)
Fixpoint traverse_next (fuel : nat) (h : gmap addr PyExecutable) (p : ptr)
    : option (list addr) :=
  match p with
  | None => Some []
  | Some a =>
      match fuel with
      | O => None
      | S fuel' =>
          match h !! a with
          | Some e => (a ::.) <$> traverse_next fuel' h (next_ e)
          | None => None
          end
      end
  end.

(** Modelled from the spec: the same walk along [prev_], which the spec
    starts at the last node of a registry. *)
Fixpoint traverse_prev (fuel : nat) (h : gmap addr PyExecutable) (p : ptr)
    : option (list addr) :=
  match p with
  | None => Some []
  | Some a =>
      match fuel with
      | O => None
      | S fuel' =>
          match h !! a with
          | Some e => (a ::.) <$> traverse_prev fuel' h (prev_ e)
          | None => None
          end
      end
  end.

(** The registry of client [c] as the client reads it. *)
Definition read_registry (fuel : nat) (σ : state) (c : addr)
    : option (list addr) :=
  match clients σ !! c with
  | Some cl => traverse_next fuel (execs σ) (executables_ cl)
  | None => None
  end.

(** ** Histories of constructions and destructions *)

Inductive op :=
  | New (this client : addr) (executable : PjRtExecutable)
        (traceback : Traceback) (fingerprint : option string)
  | Delete (this : addr).

Definition run_op (o : op) : M unit :=
  match o with
  | New this client executable tb fp =>
      new_PyExecutable this client executable tb fp
  | Delete this => PyExecutable_delete this
  end.

Fixpoint run_trace (ops : list op) : M unit :=
  match ops with
  | [] => ret tt
  | o :: ops' => run_op o ;;; run_trace ops'
  end.

(** Modelled from the spec: a store before any executable exists.  The lock
    is held, no executable is alive and every client's head pointer is null
    (the client's own initialisation is not in this file). *)
Definition initial (σ : state) : Prop :=
  gil σ = true ∧ execs σ = ∅ ∧
  ∀ c cl, clients σ !! c = Some cl → executables_ cl = nullptr.

(** ** The registry invariant *)

(** [L] is a doubly-linked chain of executables of client [c]: every node of
    [L] is alive, belongs to [c], and its links name its neighbours in [L]. *)
Definition linked (h : gmap addr PyExecutable) (c : addr) (L : list addr) : Prop :=
  ∀ L1 a L2, L = L1 ++ a :: L2 →
    ∃ e, h !! a = Some e ∧ client_ e = c ∧
         prev_ e = last L1 ∧ next_ e = head L2.

(** [L] is the registry of client [c]: the head pointer names the first node,
    the chain is well linked and without repetition, and it holds every
    live executable of [c]. *)
Definition registry_at (σ : state) (c : addr) (L : list addr) : Prop :=
  (∃ cl, clients σ !! c = Some cl ∧ executables_ cl = head L) ∧
  NoDup L ∧
  linked (execs σ) c L ∧
  (∀ a e, execs σ !! a = Some e → client_ e = c → a ∈ L).

Definition wf (σ : state) : Prop :=
  (∀ a e, execs σ !! a = Some e → is_Some (clients σ !! client_ e)) ∧
  (∀ c, is_Some (clients σ !! c) → ∃ L, registry_at σ c L).

End WithRuntime.

Section Abstract.
Context `{RT : Runtime}.

(** The registry as the spec words it, for comparison with the walks over the
    store: a construction on client [c] puts the new executable in front, a
    destruction takes the executable out wherever it sits, and nothing else
    touches the list. *)
Fixpoint spec_registry_after (ops : list op) (c : addr) (L : list addr)
    : list addr :=
  match ops with
  | [] => L
  | New this client _ _ _ :: ops' =>
      spec_registry_after ops' c (if decide (client = c) then this :: L else L)
  | Delete this :: ops' =>
      spec_registry_after ops' c (filter (λ a, a ≠ this) L)
  end.

End Abstract.

(** ** A concrete runtime and concrete stores

    The device state is a counter of engine calls and captures, a traceback is
    the value of the counter when it was captured, a status is its message.

    The hash of a string is its length, and zero for a string of more than
    a thousand characters. *)

Definition example_hash (s : string) : Z :=
  if Nat.leb (String.length s) 1000 then Z.of_nat (String.length s) else 0%Z.

Lemma example_hash_uint32 (s : string) : (0 ≤ example_hash s < 2 ^ 32)%Z.
Proof.
  unfold example_hash.
  destruct (Nat.leb_spec (String.length s) 1000); lia.
Qed.

Definition example_runtime : Runtime :=
  {| World := nat;
     Traceback := nat;
     Status := string;
     HloModule := unit;
     ClientAndPtr := addr * ptr;
     Fingerprint32 := example_hash;
     Fingerprint32_uint32 := example_hash_uint32;
     ExecuteOptions_default := {| untuple_result := false; launch_id := 0 |};
     Traceback_Get := λ w, (w, S w);
     WrapWithClient := pair |}.

(** An engine that hands its inputs back as its outputs. *)
Definition example_echo : PjRtExecutable (RT := example_runtime) :=
  @Build_PjRtExecutable example_runtime
    "echo"
    [Some 11; Some 12]%positive
    (λ args _ (w : nat), (OkValue args, S w))
    (λ args _ (w : nat), (OkValue args, S w))
    (OkValue []).

(** An engine whose every call fails. *)
Definition example_faulty : PjRtExecutable (RT := example_runtime) :=
  @Build_PjRtExecutable example_runtime
    "faulty"
    []
    (λ _ _ (w : nat), (NotOk "device fault", S w))
    (λ _ _ (w : nat), (NotOk "device fault", S w))
    (NotOk "device fault").

Definition example_buffer (n : positive) : PyBuffer (RT := example_runtime) :=
  @Build_PyBuffer example_runtime 1%positive (Some n) 0.

(** One client, no executable yet. *)
Definition example_empty : state (RT := example_runtime) :=
  @Build_state example_runtime
    true {[ 1%positive := {| executables_ := nullptr |} ]} ∅ 0.

Definition example_exec (engine : PjRtExecutable (RT := example_runtime))
    : PyExecutable (RT := example_runtime) :=
  @Build_PyExecutable example_runtime
    1%positive engine 0 (Some "abc")
    {| untuple_result := true; launch_id := 3 |} nullptr nullptr.

(** One client with one executable, at address 5. *)
Definition example_live (engine : PjRtExecutable (RT := example_runtime))
    : state (RT := example_runtime) :=
  @Build_state example_runtime
    true {[ 1%positive := {| executables_ := Some 5%positive |} ]}
    {[ 5%positive := example_exec engine ]} 0.

(** Three constructions on client 1, then the middle one is destroyed. *)
Definition example_history : list (op (RT := example_runtime)) :=
  [ @New example_runtime 5 1 example_echo 0%nat (Some "abc");
    @New example_runtime 6 1 example_faulty 0%nat None;
    @New example_runtime 7 1 example_echo 0%nat (Some "abcd");
    Delete 6 ]%positive.

Definition example_after : state (RT := example_runtime) :=
  match run_trace example_history example_empty with
  | Ret (_, σ) => σ
  | _ => example_empty
  end.

(** An engine that shows the options it is called with: it fails unless
    [untuple_result] is set, and otherwise returns one buffer whose address
    is the launch identifier. *)
Definition example_probe : PjRtExecutable (RT := example_runtime) :=
  @Build_PjRtExecutable example_runtime
    "probe"
    [Some 13%positive]
    (λ _ opts (w : nat),
       if untuple_result opts
       then (OkValue [Some (Z.to_pos (launch_id opts))], S w)
       else (NotOk "tupled result", S w))
    (λ _ opts (w : nat),
       if untuple_result opts
       then (OkValue [[Some (Z.to_pos (launch_id opts))]], S w)
       else (NotOk "tupled result", S w))
    (OkValue [tt]).

(** Two clients, no executable yet. *)
Definition example_two_clients : state (RT := example_runtime) :=
  @Build_state example_runtime
    true
    (<[ 1%positive := {| executables_ := nullptr |} ]>
       {[ 2%positive := {| executables_ := nullptr |} ]})
    ∅ 0.

(** Constructions on the two clients in turn; then the head of the first
    client's registry is destroyed and its storage is used again, for the
    other client. *)
Definition example_interleaved : list (op (RT := example_runtime)) :=
  [ @New example_runtime 7 1 example_probe 0%nat (Some "abcd");
    @New example_runtime 6 2 example_faulty 0%nat None;
    @New example_runtime 5 1 example_echo 0%nat (Some "abc");
    @New example_runtime 8 2 example_echo 0%nat None;
    Delete 5;
    @New example_runtime 5 2 example_probe 0%nat (Some "abcde") ]%positive.

(** The store that this history leaves, written out. *)
Definition example_interleaved_after : state (RT := example_runtime) :=
  Eval vm_compute in
  match run_trace example_interleaved example_two_clients with
  | Ret (_, σ) => σ
  | _ => example_two_clients
  end.

(** What happens to that store next. *)
Definition example_sequel : list (op (RT := example_runtime)) :=
  [ @New example_runtime 9 2 example_echo 0%nat (Some "ab");
    Delete 8 ]%positive.

Definition example_sequel_after : state (RT := example_runtime) :=
  Eval vm_compute in
  match run_trace example_sequel example_interleaved_after with
  | Ret (_, σ) => σ
  | _ => example_interleaved_after
  end.






(** * Properties *)

Section Loops.
Context `{RT : Runtime}.

Lemma c_transform_middle {A B} (f : A → B) (src : list A) (pre mid post : list B) :
  length mid = length src →
  c_transform f src (length pre) (pre ++ mid ++ post) = pre ++ map f src ++ post.
Proof.
  revert pre mid. induction src as [|x src IH]; intros pre mid Hlen.
  - destruct mid; [done | discriminate].
  - destruct mid as [|m mid]; [discriminate |]. simpl in Hlen.
    cbn [c_transform map].
    rewrite insert_app_r_alt by lia. rewrite Nat.sub_diag. cbn [app].
    change (<[0:=f x]> (m :: mid ++ post)) with (f x :: mid ++ post).
    replace (S (length pre)) with (length (pre ++ [f x]))
      by (rewrite length_app; simpl; lia).
    replace (pre ++ f x :: mid ++ post) with ((pre ++ [f x]) ++ mid ++ post)
      by (by rewrite <- app_assoc).
    rewrite IH by lia. by rewrite <- app_assoc.
Qed.

Lemma arg_buffers_of_map (args : list PyBuffer) :
  arg_buffers_of args = map buffer args.
Proof.
  unfold arg_buffers_of.
  pose proof (c_transform_middle buffer args []
                (replicate (length args) nullptr) []) as H.
  rewrite !app_nil_r in H. simpl in H. apply H. apply length_replicate.
Qed.

Lemma nested_arg_buffers_loop (args done rest : list (list PyBuffer)) :
  args = done ++ rest →
  fold_left
    (λ arg_buffers computation,
       let arg_buffers :=
         alter (resize (length (args !!! computation)) nullptr)
               computation arg_buffers in
       alter (c_transform buffer (args !!! computation) 0)
             computation arg_buffers)
    (seq (length done) (length rest))
    (map (map buffer) done ++ replicate (length rest) []) =
  map (map buffer) args.
Proof.
  revert done. induction rest as [|r rest IH]; intros done ->.
  - simpl. by rewrite !app_nil_r.
  - cbn [length seq fold_left replicate].
    rewrite list_lookup_total_middle by done.
    rewrite (alter_app_r_alt _ _ _ (length done)) by (by rewrite length_map).
    rewrite length_map, Nat.sub_diag. cbn [alter list_alter].
    rewrite (alter_app_r_alt _ _ _ (length done)) by (by rewrite length_map).
    rewrite length_map, Nat.sub_diag. cbn [alter list_alter].
    rewrite resize_nil.
    pose proof (c_transform_middle buffer r []
                  (replicate (length r) nullptr) []) as Hc.
    rewrite !app_nil_r in Hc. simpl in Hc. rewrite Hc by apply length_replicate.
    specialize (IH (done ++ [r])).
    rewrite length_app, map_app in IH. simpl in IH.
    rewrite Nat.add_1_r, <- !app_assoc in IH. simpl in IH.
    by apply IH.
Qed.

Lemma nested_arg_buffers_of_map (args : list (list PyBuffer)) :
  nested_arg_buffers_of args = map (map buffer) args.
Proof. apply (nested_arg_buffers_loop args [] args). done. Qed.

Lemma wrap_outputs_loop (client : addr) (tb : Traceback) (bs : list ptr)
    (acc : list PyBuffer) :
  fold_left
    (λ outputs b,
       outputs ++ [{| pb_client := client; buffer := b; traceback := tb |}])
    bs acc =
  acc ++ map (λ b, {| pb_client := client; buffer := b; traceback := tb |}) bs.
Proof.
  revert acc. induction bs as [|b bs IH]; intros acc; simpl.
  - by rewrite app_nil_r.
  - rewrite IH. by rewrite <- app_assoc.
Qed.

Lemma wrap_outputs_map (client : addr) (tb : Traceback) (bs : list ptr) :
  wrap_outputs client tb bs =
  map (λ b, {| pb_client := client; buffer := b; traceback := tb |}) bs.
Proof. unfold wrap_outputs. by rewrite wrap_outputs_loop. Qed.

Lemma push_row_loop (client : addr) (tb : Traceback) (bs : list ptr)
    (i : nat) (outputs : list (list PyBuffer)) :
  fold_left
    (λ outputs b,
       alter (λ row, row ++ [{| pb_client := client; buffer := b;
                                traceback := tb |}]) i outputs)
    bs outputs =
  alter (λ row,
           row ++ map (λ b, {| pb_client := client; buffer := b;
                               traceback := tb |}) bs) i outputs.
Proof.
  revert outputs. induction bs as [|b bs IH]; intros outputs; simpl.
  - symmetry. apply list_alter_id. intros row. apply app_nil_r.
  - rewrite IH. rewrite list_alter_alter_eq. apply list_alter_ext; [|done].
    intros row _. simpl. by rewrite <- app_assoc.
Qed.

Lemma wrap_nested_loop (client : addr) (tb : Traceback)
    (obs done rest : list (list ptr)) :
  obs = done ++ rest →
  fold_left
    (λ outputs computation,
       fold_left
         (λ outputs b,
            alter (λ row, row ++ [{| pb_client := client; buffer := b;
                                     traceback := tb |}])
                  computation outputs)
         (obs !!! computation) outputs)
    (seq (length done) (length rest))
    (map (map (λ b, {| pb_client := client; buffer := b; traceback := tb |})) done
       ++ replicate (length rest) []) =
  map (map (λ b, {| pb_client := client; buffer := b; traceback := tb |})) obs.
Proof.
  revert done. induction rest as [|r rest IH]; intros done ->.
  - simpl. by rewrite !app_nil_r.
  - cbn [length seq fold_left replicate].
    rewrite list_lookup_total_middle by done.
    rewrite push_row_loop.
    set (mk := λ b, {| pb_client := client; buffer := b; traceback := tb |}).
    rewrite (alter_app_r_alt _ _ _ (length done)) by (by rewrite length_map).
    rewrite length_map, Nat.sub_diag. cbn [alter list_alter app].
    specialize (IH (done ++ [r])).
    rewrite length_app, map_app in IH. simpl in IH.
    rewrite Nat.add_1_r, <- !app_assoc in IH. simpl in IH.
    by apply IH.
Qed.

Lemma wrap_nested_outputs_map (client : addr) (tb : Traceback)
    (obs : list (list ptr)) :
  wrap_nested_outputs client tb obs =
  map (map (λ b, {| pb_client := client; buffer := b; traceback := tb |})) obs.
Proof. apply (wrap_nested_loop client tb obs [] obs). done. Qed.

End Loops.

Section Execution.
Context `{RT : Runtime}.

(** What a call of [PjRtExecute] on a live executable amounts to. *)
Lemma PjRtExecute_run (this : addr) (self : PyExecutable) (args : list ptr)
    (σ : state) :
  execs σ !! this = Some self →
  PyExecutable_PjRtExecute this args σ =
  match Execute (executable_ self) args (options_ self) (world σ)
    return outcome (StatusOr Status (list PyBuffer) * state) with
  | (NotOk s, w) =>
      Ret (NotOk s,
           {| gil := true; clients := clients σ; execs := execs σ; world := w |})
  | (OkValue obs, w) =>
      Ret (OkValue
             (map (λ b, {| pb_client := client_ self; buffer := b;
                           traceback := (Traceback_Get w).1 |}) obs),
           {| gil := true; clients := clients σ; execs := execs σ;
              world := (Traceback_Get w).2 |})
  end.
Proof.
  intros Hlive.
  unfold PyExecutable_PjRtExecute, bind, gil_release, gil_acquire, load_exec,
    in_world, ret.
  cbn [execs with_gil world]. rewrite Hlive.
  destruct (Execute _ _ _ _) as [[obs|s] w]; cbn; [|done].
  destruct (Traceback_Get w) as [tb w2]; cbn. rewrite Hlive.
  by rewrite wrap_outputs_map.
Qed.

Lemma Execute_as_PjRtExecute (this : addr) (args : list PyBuffer) (σ : state) :
  PyExecutable_Execute this args σ =
  PyExecutable_PjRtExecute this (map buffer args) σ.
Proof.
  unfold PyExecutable_Execute, PyExecutable_PjRtExecute.
  by rewrite arg_buffers_of_map.
Qed.

Lemma ExecuteOnLocalDevices_run (this : addr) (self : PyExecutable)
    (args : list (list PyBuffer)) (σ : state) :
  execs σ !! this = Some self →
  PyExecutable_ExecuteOnLocalDevices this args σ =
  match ExecuteOnLocalDevices (executable_ self) (map (map buffer) args)
          (options_ self) (world σ)
    return outcome (StatusOr Status (list (list PyBuffer)) * state) with
  | (NotOk s, w) =>
      Ret (NotOk s,
           {| gil := true; clients := clients σ; execs := execs σ; world := w |})
  | (OkValue obs, w) =>
      Ret (OkValue
             (map (map (λ b, {| pb_client := client_ self; buffer := b;
                                traceback := (Traceback_Get w).1 |})) obs),
           {| gil := true; clients := clients σ; execs := execs σ;
              world := (Traceback_Get w).2 |})
  end.
Proof.
  intros Hlive.
  unfold PyExecutable_ExecuteOnLocalDevices, bind, gil_release, gil_acquire,
    load_exec, in_world, ret.
  cbn [execs with_gil world]. rewrite Hlive, nested_arg_buffers_of_map.
  destruct (ExecuteOnLocalDevices _ _ _ _) as [[obs|s] w]; cbn; [|done].
  destruct (Traceback_Get w) as [tb w2]; cbn. rewrite Hlive.
  by rewrite wrap_nested_outputs_map.
Qed.

Lemma map_buffer_wrap (client : addr) (tb : Traceback) (bs : list ptr) :
  map buffer
    (map (λ b, {| pb_client := client; buffer := b; traceback := tb |}) bs) = bs.
Proof. rewrite map_map. simpl. apply map_id. Qed.

Lemma Forall_traceback_wrap (client : addr) (tb : Traceback) (bs : list ptr) :
  Forall (λ b, traceback b = tb)
    (map (λ b, {| pb_client := client; buffer := b; traceback := tb |}) bs).
Proof. apply Forall_forall. intros b [? [-> _]]%list_elem_of_fmap. done. Qed.

(** C4.  Single-device round trip: when the engine hands its inputs back
    as its outputs, [Execute] on [K] handles returns [K] handles, in the
    order of the inputs, the [k]-th wrapping the native buffer of the
    [k]-th input. *)
Theorem Execute_echo_roundtrip (this : addr) (self : PyExecutable)
    (args : list PyBuffer) (σ : state) (w' : World) :
  execs σ !! this = Some self →
  Execute (executable_ self) (map buffer args) (options_ self) (world σ)
    = (OkValue (map buffer args), w') →
  ∃ outputs σ',
    PyExecutable_Execute this args σ = Ret (OkValue outputs, σ') ∧
    length outputs = length args ∧
    map buffer outputs = map buffer args ∧
    ∀ k, buffer <$> outputs !! k = buffer <$> args !! k.
Proof.
  intros Hlive Hecho.
  rewrite Execute_as_PjRtExecute, (PjRtExecute_run _ self) by done.
  rewrite Hecho. eexists _, _. split; [done|].
  rewrite map_buffer_wrap. split_and!; [|done|].
  - by rewrite !length_map.
  - intros k. rewrite <- !list_lookup_fmap.
    change (fmap buffer) with (map buffer). by rewrite map_buffer_wrap.
Qed.

(** C5.  Multi-device shape: the nested result of [ExecuteOnLocalDevices]
    has one row per row of the engine's output, every row has the size of
    the engine's row and wraps its buffers in the engine's order. *)
Theorem ExecuteOnLocalDevices_shape (this : addr) (self : PyExecutable)
    (args : list (list PyBuffer)) (σ : state)
    (output_buffers : list (list ptr)) (w' : World) :
  execs σ !! this = Some self →
  ExecuteOnLocalDevices (executable_ self) (map (map buffer) args)
    (options_ self) (world σ) = (OkValue output_buffers, w') →
  ∃ outputs σ',
    PyExecutable_ExecuteOnLocalDevices this args σ = Ret (OkValue outputs, σ') ∧
    length outputs = length output_buffers ∧
    map length outputs = map length output_buffers ∧
    map (map buffer) outputs = output_buffers.
Proof.
  intros Hlive Hengine.
  rewrite (ExecuteOnLocalDevices_run _ self) by done. rewrite Hengine.
  eexists _, _. split; [done|]. split_and!.
  - by rewrite length_map.
  - rewrite map_map. apply map_ext. intros row. by rewrite length_map.
  - rewrite map_map. rewrite <- (map_id output_buffers) at 2.
    apply map_ext. intros row. apply map_buffer_wrap.
Qed.

(** C6.  Engine failure: on each of the three entry points a failure of
    the engine is returned as it is, with no output list, and the store of
    executables and clients, hence every registry, is as before the call. *)
Theorem engine_failure_propagates (this : addr) (self : PyExecutable)
    (σ : state) (s : Status) (w' : World) :
  execs σ !! this = Some self →
  (∀ args,
     Execute (executable_ self) args (options_ self) (world σ) = (NotOk s, w') →
     ∃ σ', PyExecutable_PjRtExecute this args σ = Ret (NotOk s, σ') ∧
           execs σ' = execs σ ∧ clients σ' = clients σ ∧
           ∀ fuel c, read_registry fuel σ' c = read_registry fuel σ c) ∧
  (∀ args,
     Execute (executable_ self) (map buffer args) (options_ self) (world σ)
       = (NotOk s, w') →
     ∃ σ', PyExecutable_Execute this args σ = Ret (NotOk s, σ') ∧
           execs σ' = execs σ ∧ clients σ' = clients σ ∧
           ∀ fuel c, read_registry fuel σ' c = read_registry fuel σ c) ∧
  (∀ args,
     ExecuteOnLocalDevices (executable_ self) (map (map buffer) args)
       (options_ self) (world σ) = (NotOk s, w') →
     ∃ σ', PyExecutable_ExecuteOnLocalDevices this args σ = Ret (NotOk s, σ') ∧
           execs σ' = execs σ ∧ clients σ' = clients σ ∧
           ∀ fuel c, read_registry fuel σ' c = read_registry fuel σ c).
Proof.
  intros Hlive. split_and!; intros args Hfail.
  - rewrite (PjRtExecute_run _ self) by done. rewrite Hfail.
    eexists. split_and!; done.
  - rewrite Execute_as_PjRtExecute, (PjRtExecute_run _ self) by done.
    rewrite Hfail. eexists. split_and!; done.
  - rewrite (ExecuteOnLocalDevices_run _ self) by done. rewrite Hfail.
    eexists. split_and!; done.
Qed.

(** C7.  One traceback per call: on success every output handle of the
    call, in every row for the multi-device entry point, carries the
    traceback captured once after the engine returned. *)
Theorem outputs_share_traceback (this : addr) (self : PyExecutable)
    (σ : state) (w' : World) :
  execs σ !! this = Some self →
  (∀ args obs,
     Execute (executable_ self) args (options_ self) (world σ)
       = (OkValue obs, w') →
     ∃ outputs σ',
       PyExecutable_PjRtExecute this args σ = Ret (OkValue outputs, σ') ∧
       length outputs = length obs ∧
       Forall (λ b, traceback b = (Traceback_Get w').1) outputs ∧
       world σ' = (Traceback_Get w').2) ∧
  (∀ args obs,
     Execute (executable_ self) (map buffer args) (options_ self) (world σ)
       = (OkValue obs, w') →
     ∃ outputs σ',
       PyExecutable_Execute this args σ = Ret (OkValue outputs, σ') ∧
       length outputs = length obs ∧
       Forall (λ b, traceback b = (Traceback_Get w').1) outputs ∧
       world σ' = (Traceback_Get w').2) ∧
  (∀ args obs,
     ExecuteOnLocalDevices (executable_ self) (map (map buffer) args)
       (options_ self) (world σ) = (OkValue obs, w') →
     ∃ outputs σ',
       PyExecutable_ExecuteOnLocalDevices this args σ
         = Ret (OkValue outputs, σ') ∧
       map length outputs = map length obs ∧
       Forall (Forall (λ b, traceback b = (Traceback_Get w').1)) outputs ∧
       world σ' = (Traceback_Get w').2).
Proof.
  intros Hlive. split_and!; intros args obs Hok.
  - rewrite (PjRtExecute_run _ self) by done. rewrite Hok.
    eexists _, _. split_and!; [done| |apply Forall_traceback_wrap|done].
    by rewrite length_map.
  - rewrite Execute_as_PjRtExecute, (PjRtExecute_run _ self) by done.
    rewrite Hok.
    eexists _, _. split_and!; [done| |apply Forall_traceback_wrap|done].
    by rewrite length_map.
  - rewrite (ExecuteOnLocalDevices_run _ self) by done. rewrite Hok.
    eexists _, _. split_and!; [done| | |done].
    + rewrite map_map. apply map_ext. intros row. by rewrite length_map.
    + apply Forall_forall. intros row [? [-> _]]%list_elem_of_fmap.
      apply Forall_traceback_wrap.
Qed.

(** C8.  Buffer bridge: the native arguments built from a sequence of
    handles are the wrapped native pointers, one per handle, in the order
    and with the repetitions of the handles; the same holds row by row for
    the nested arguments, and [Execute] runs the engine on exactly these. *)
Theorem buffer_bridge_extracts (args : list PyBuffer)
    (nested : list (list PyBuffer)) :
  arg_buffers_of args = map buffer args ∧
  length (arg_buffers_of args) = length args ∧
  (∀ k, arg_buffers_of args !! k = buffer <$> args !! k) ∧
  nested_arg_buffers_of nested = map (map buffer) nested ∧
  map length (nested_arg_buffers_of nested) = map length nested ∧
  (∀ this σ, PyExecutable_Execute this args σ
             = PyExecutable_PjRtExecute this (arg_buffers_of args) σ).
Proof.
  rewrite arg_buffers_of_map, nested_arg_buffers_of_map. split_and!.
  - done.
  - apply length_map.
  - intros k. apply list_lookup_fmap.
  - done.
  - rewrite map_map. apply map_ext. intros row. apply length_map.
  - intros this σ. apply Execute_as_PjRtExecute.
Qed.

(** C9.  Frame: a call of any of the three entry points on a live
    executable returns, with the engine's failure or with outputs, and
    leaves every executable and every client of the store as it was; so
    the options, fingerprint, compiled program, client and links of the
    executable itself are what they were. *)
Theorem execution_preserves_executable (this : addr) (self : PyExecutable)
    (σ : state) :
  execs σ !! this = Some self →
  (∀ args, ∃ r σ',
     PyExecutable_PjRtExecute this args σ = Ret (r, σ') ∧
     execs σ' = execs σ ∧ clients σ' = clients σ ∧
     execs σ' !! this = Some self) ∧
  (∀ args, ∃ r σ',
     PyExecutable_Execute this args σ = Ret (r, σ') ∧
     execs σ' = execs σ ∧ clients σ' = clients σ ∧
     execs σ' !! this = Some self) ∧
  (∀ args, ∃ r σ',
     PyExecutable_ExecuteOnLocalDevices this args σ = Ret (r, σ') ∧
     execs σ' = execs σ ∧ clients σ' = clients σ ∧
     execs σ' !! this = Some self).
Proof.
  intros Hlive. split_and!; intros args.
  - rewrite (PjRtExecute_run _ self) by done.
    destruct (Execute _ _ _ _) as [[obs|s] w]; eexists _, _; split_and!; done.
  - rewrite Execute_as_PjRtExecute, (PjRtExecute_run _ self) by done.
    destruct (Execute _ _ _ _) as [[obs|s] w]; eexists _, _; split_and!; done.
  - rewrite (ExecuteOnLocalDevices_run _ self) by done.
    destruct (ExecuteOnLocalDevices _ _ _ _) as [[obs|s] w];
      eexists _, _; split_and!; done.
Qed.

Lemma push_back_loop {A B} (f : A → B) (l : list A) (acc : list B) :
  fold_left (λ devices device, devices ++ [f device]) l acc = acc ++ map f l.
Proof.
  revert acc. induction l as [|x l IH]; intros acc; simpl.
  - by rewrite app_nil_r.
  - rewrite IH. by rewrite <- app_assoc.
Qed.

(** C10.  [LocalDevices] returns one entry per device of the compiled
    program's device list, in the engine's order, each built by
    [WrapWithClient] from the executable's own client and that device. *)
Theorem LocalDevices_wraps_each_device (this : addr) (self : PyExecutable)
    (σ : state) :
  execs σ !! this = Some self →
  ∃ devices,
    PyExecutable_LocalDevices this σ = Ret (devices, σ) ∧
    length devices = length (local_devices (executable_ self)) ∧
    devices = map (WrapWithClient (client_ self))
                  (local_devices (executable_ self)) ∧
    ∀ k, devices !! k =
         WrapWithClient (client_ self) <$> local_devices (executable_ self) !! k.
Proof.
  intros Hlive. unfold PyExecutable_LocalDevices, bind, load_exec, ret.
  rewrite Hlive, push_back_loop. cbn [app].
  eexists. split_and!; [done| |done|].
  - apply length_map.
  - intros k. apply list_lookup_fmap.
Qed.

End Execution.

Section Registry.
Context `{RT : Runtime}.

(** ** What the constructor and the destructor do to the store *)

(** One step through an unfolded member function: project the store, then
    resolve the lookup or the test that is next. *)
Ltac store_step :=
  progress
    (cbn [execs clients gil world with_execs with_clients with_gil with_world
          client_ executable_ traceback_ fingerprint_ options_ prev_ next_
          executables_ set_options set_prev set_next set_executables
          set_untuple_result set_launch_id untuple_result launch_id];
     try first
       [ rewrite lookup_insert_eq
       | rewrite lookup_insert_ne by done
       | rewrite lookup_delete_ne by done
       | rewrite decide_True by done
       | rewrite decide_False by done
       | match goal with
         | H : _ !! _ = _ |- _ => rewrite H
         | H : gil _ = _ |- _ => rewrite H
         | H : executables_ _ = _ |- _ => rewrite H
         end ]).

Lemma ctor_spec (this client : addr) (ex : PjRtExecutable) (tb : Traceback)
    (fp : option string) (σ : state) (cl : PyClient) :
  gil σ = true →
  execs σ !! this = None →
  clients σ !! client = Some cl →
  (∀ n, executables_ cl = Some n → is_Some (execs σ !! n)) →
  ∃ σ',
    PyExecutable_ctor this client ex tb fp σ = Ret (tt, σ') ∧
    gil σ' = true ∧ world σ' = world σ ∧
    clients σ' = <[client := {| executables_ := Some this |}]> (clients σ) ∧
    ∀ a, execs σ' !! a =
         if decide (a = this) then
           Some {| client_ := client; executable_ := ex; traceback_ := tb;
                   fingerprint_ := fp;
                   options_ :=
                     {| untuple_result := true;
                        launch_id :=
                          match fp with
                          | Some F => int32_of_uint32 (Fingerprint32 F)
                          | None => launch_id ExecuteOptions_default
                          end |};
                   prev_ := nullptr; next_ := executables_ cl |}
         else if decide (executables_ cl = Some a) then
           set_prev (Some this) <$> execs σ !! a
         else execs σ !! a.
Proof.
  intros Hgil Hfresh Hcl Hhead.
  unfold PyExecutable_ctor, bind, begin_lifetime, CHECK_PyGILState, load_exec,
    load_client, modify_exec, modify_client, ret.
  destruct (executables_ cl) as [n|] eqn:Hn.
  - destruct (Hhead n eq_refl) as [en Hen].
    assert (n ≠ this) by congruence.
    destruct fp as [F|]; repeat store_step.
    all: eexists; (split; [done|]); cbn; (split_and!; [done..|]); intros a.
    all: destruct (decide (a = this)) as [->|Hne]; [by rewrite lookup_insert_eq|].
    all: rewrite !(lookup_insert_ne _ this) by done.
    all: destruct (decide (a = n)) as [->|Hne'].
    all: rewrite ?lookup_insert_eq, ?(lookup_insert_ne _ n) by done.
    all: rewrite ?(lookup_insert_ne _ this) by done.
    all: case_decide; try congruence; by rewrite ?Hen.
  - destruct fp as [F|]; repeat store_step.
    all: eexists; (split; [done|]); cbn; (split_and!; [done..|]); intros a.
    all: destruct (decide (a = this)) as [->|Hne]; [by rewrite lookup_insert_eq|].
    all: by rewrite !(lookup_insert_ne _ this) by done.
Qed.

Lemma delete_spec (this : addr) (self : PyExecutable) (cl : PyClient)
    (σ : state) :
  gil σ = true →
  execs σ !! this = Some self →
  clients σ !! client_ self = Some cl →
  (∀ p, prev_ self = Some p → p ≠ this ∧ is_Some (execs σ !! p)) →
  (∀ n, next_ self = Some n → n ≠ this ∧ is_Some (execs σ !! n)) →
  (∀ a, prev_ self = Some a → next_ self ≠ Some a) →
  ∃ σ',
    PyExecutable_delete this σ = Ret (tt, σ') ∧
    gil σ' = true ∧ world σ' = world σ ∧
    clients σ' =
      (if decide (executables_ cl = Some this)
       then <[client_ self := {| executables_ := next_ self |}]> (clients σ)
       else clients σ) ∧
    ∀ a, execs σ' !! a =
         if decide (a = this) then None
         else if decide (prev_ self = Some a) then
           set_next (next_ self) <$> execs σ !! a
         else if decide (next_ self = Some a) then
           set_prev (prev_ self) <$> execs σ !! a
         else execs σ !! a.
Proof.
  intros Hgil Hlive Hcl Hprev Hnext Hdistinct.
  destruct self as [c ex tb fp opts pv nx]. cbn in *.
  unfold PyExecutable_delete, PyExecutable_dtor, bind, end_lifetime,
    CHECK_PyGILState, load_exec, load_client, modify_exec, modify_client, ret.
  destruct (decide (executables_ cl = Some this)) as [Hhd|Hhd];
    destruct pv as [p|]; destruct nx as [n|];
    try (destruct (Hprev p eq_refl) as [Hp [ep Hep]]);
    try (destruct (Hnext n eq_refl) as [Hn [en Hen]]);
    try (assert (p ≠ n) by (intros ->; by eapply Hdistinct));
    repeat store_step.
  all: eexists; (split; [done|]); cbn; (split_and!; [done..|]); intros a.
  all: destruct (decide (a = this)) as [->|];
    [by rewrite lookup_delete_eq|]; rewrite lookup_delete_ne by done.
  all: repeat case_decide; simplify_eq.
  all: repeat (rewrite lookup_insert_eq || rewrite lookup_insert_ne by congruence).
  all: rewrite ?Hep, ?Hen; done.
Qed.

(** ** Chains and the two walks *)

Lemma NoDup_split_unique {A} (L1 L2 L1' L2' : list A) (a : A) :
  NoDup (L1 ++ a :: L2) →
  L1 ++ a :: L2 = L1' ++ a :: L2' →
  L1 = L1' ∧ L2 = L2'.
Proof.
  revert L1'. induction L1 as [|x L1 IH]; intros L1' Hnd Heq.
  - destruct L1' as [|y L1']; simplify_eq/=; [done|].
    apply NoDup_cons in Hnd as [Hnotin _].
    exfalso. apply Hnotin. apply elem_of_app. right. left.
  - destruct L1' as [|y L1']; simplify_eq/=.
    + apply NoDup_cons in Hnd as [Hnotin _].
      exfalso. apply Hnotin. apply elem_of_app. right. left.
    + apply NoDup_cons in Hnd as [_ Hnd].
      destruct (IH L1' Hnd) as [-> ->]; done.
Qed.

Lemma linked_node (h : gmap addr PyExecutable) (c : addr) (L : list addr)
    (a : addr) :
  linked h c L → a ∈ L → ∃ e, h !! a = Some e ∧ client_ e = c.
Proof.
  intros Hl (L1 & L2 & ->)%list_elem_of_split.
  destruct (Hl L1 a L2 eq_refl) as (e & ? & ? & _). eauto.
Qed.

Lemma linked_traverse_next (h : gmap addr PyExecutable) (c : addr)
    (L : list addr) :
  linked h c L →
  ∀ L2 L1 fuel, L = L1 ++ L2 → length L2 ≤ fuel →
    traverse_next fuel h (head L2) = Some L2.
Proof.
  intros Hl. induction L2 as [|a L2 IH]; intros L1 fuel HL Hfuel.
  - by destruct fuel.
  - destruct fuel as [|fuel]; [simpl in Hfuel; lia|]. simpl in Hfuel.
    destruct (Hl L1 a L2 HL) as (e & He & _ & _ & Hnext).
    cbn [head traverse_next]. rewrite He, Hnext.
    rewrite (IH (L1 ++ [a]) fuel); [done| |lia].
    by rewrite <- app_assoc.
Qed.

Lemma linked_traverse_prev (h : gmap addr PyExecutable) (c : addr)
    (L : list addr) :
  linked h c L →
  ∀ L1 L2 fuel, L = L1 ++ L2 → length L1 ≤ fuel →
    traverse_prev fuel h (last L1) = Some (reverse L1).
Proof.
  intros Hl. induction L1 as [|a L1 IH] using rev_ind; intros L2 fuel HL Hfuel.
  - by destruct fuel.
  - rewrite length_app in Hfuel. simpl in Hfuel.
    destruct fuel as [|fuel]; [lia|].
    rewrite <- app_assoc in HL. simpl in HL.
    destruct (Hl L1 a L2 HL) as (e & He & _ & Hprev & _).
    rewrite last_snoc, reverse_snoc. cbn [traverse_prev]. rewrite He, Hprev.
    rewrite (IH (a :: L2) fuel); [done|done|lia].
Qed.

Lemma registry_at_read (σ : state) (c : addr) (L : list addr) (fuel : nat) :
  registry_at σ c L → length L ≤ fuel → read_registry fuel σ c = Some L.
Proof.
  intros ((cl & Hcl & Hhead) & _ & Hl & _) Hfuel.
  unfold read_registry. rewrite Hcl, Hhead.
  by apply (linked_traverse_next _ c L Hl L []).
Qed.

Lemma registry_at_unique (σ : state) (c : addr) (L L' : list addr) :
  registry_at σ c L → registry_at σ c L' → L = L'.
Proof.
  intros H1 H2.
  pose proof (registry_at_read σ c L (length L `max` length L') H1) as R1.
  pose proof (registry_at_read σ c L' (length L `max` length L') H2) as R2.
  rewrite R1 in R2 by lia. by injection R2; [|lia].
Qed.

(** ** The constructor keeps the registries *)

Lemma registry_head_live (σ : state) (c : addr) (L : list addr) (cl : PyClient) :
  registry_at σ c L → clients σ !! c = Some cl →
  executables_ cl = head L ∧
  ∀ n, executables_ cl = Some n →
       n ∈ L ∧ ∃ e, execs σ !! n = Some e ∧ client_ e = c.
Proof.
  intros ((cl' & Hcl' & Hhead) & _ & Hl & _) Hcl. simplify_eq.
  split; [done|]. intros n Hn. rewrite Hhead in Hn.
  apply head_Some_elem_of in Hn. split; [done|]. by eapply linked_node.
Qed.

Section Ctor.
Variables (σ σ' : state) (this client : addr) (cl : PyClient)
  (obj : PyExecutable).
Hypothesis Hfresh : execs σ !! this = None.
Hypothesis Hcl : clients σ !! client = Some cl.
Hypothesis Hobj :
  client_ obj = client ∧ prev_ obj = nullptr ∧ next_ obj = executables_ cl.
Hypothesis Hclients :
  clients σ' = <[client := {| executables_ := Some this |}]> (clients σ).
Hypothesis Hexecs :
  ∀ a, execs σ' !! a =
       if decide (a = this) then Some obj
       else if decide (executables_ cl = Some a) then
         set_prev (Some this) <$> execs σ !! a
       else execs σ !! a.

Lemma ctor_origin (a : addr) (e : PyExecutable) :
  execs σ' !! a = Some e → a ≠ this →
  ∃ e0, execs σ !! a = Some e0 ∧ client_ e = client_ e0.
Proof using All.
  intros Hae Hne. rewrite Hexecs, decide_False in Hae by done.
  case_decide.
  - destruct (execs σ !! a) as [e0|]; simplify_eq/=. eauto.
  - eauto.
Qed.

Lemma ctor_registry_here (L : list addr) :
  registry_at σ client L → registry_at σ' client (this :: L).
Proof using All.
  intros HR. destruct (registry_head_live _ _ _ _ HR Hcl) as [Hhead _].
  destruct HR as (_ & Hnd & Hl & Hcomplete).
  destruct Hobj as (Hoc & Hop & Hon).
  assert (Hnotin : this ∉ L).
  { intros Hin. destruct (linked_node _ _ _ _ Hl Hin) as (e & He & _).
    congruence. }
  split_and!.
  - exists {| executables_ := Some this |}. split; [|done].
    by rewrite Hclients, lookup_insert_eq.
  - by apply NoDup_cons.
  - intros L1 a L2 Heq. destruct L1 as [|y L1]; simpl in Heq.
    all: injection Heq as <- ->.
    + exists obj. rewrite Hexecs, decide_True by done.
      split_and!; [done..|]. congruence.
    + assert (Ha : a ∈ L1 ++ a :: L2) by (apply elem_of_app; right; left).
      assert (a ≠ this) by (intros ->; done).
      destruct (Hl L1 a L2 eq_refl) as (e & He & Hce & Hpe & Hne).
      rewrite Hexecs, decide_False by done. rewrite Hhead.
      destruct L1 as [|z L1].
      * cbn [app head]. rewrite decide_True by done. rewrite He.
        exists (set_prev (Some this) e). done.
      * cbn [app head]. rewrite decide_False.
        { exists e. split_and!; done. }
        intros [= ->]. simpl in Hnd. apply NoDup_cons in Hnd as [Hz _].
        apply Hz. apply elem_of_app. right. left.
  - intros a e Hae Hc. destruct (decide (a = this)) as [->|Hne]; [left|].
    right. destruct (ctor_origin a e Hae Hne) as (e0 & He0 & Hc0).
    apply (Hcomplete a e0); congruence.
Qed.

Lemma ctor_registry_elsewhere (L : list addr) (c' : addr) (L' : list addr) :
  registry_at σ client L → c' ≠ client →
  registry_at σ c' L' → registry_at σ' c' L'.
Proof using All.
  intros HR Hc' ((cl' & Hcl' & Hhead') & Hnd' & Hl' & Hcomplete').
  destruct (registry_head_live _ _ _ _ HR Hcl) as [_ Hhd].
  destruct Hobj as (Hoc & Hop & Hon).
  split_and!.
  - exists cl'. by rewrite Hclients, lookup_insert_ne.
  - done.
  - intros L1 a L2 Heq. destruct (Hl' L1 a L2 Heq) as (e & He & Hce & Hpn).
    exists e. split; [|done].
    rewrite Hexecs, decide_False by congruence.
    rewrite decide_False; [done|].
    intros Hh. destruct (Hhd a Hh) as (_ & e' & He' & Hce'). congruence.
  - intros a e Hae Hc.
    assert (Hne : a ≠ this).
    { intros ->. rewrite Hexecs, decide_True in Hae by done. congruence. }
    destruct (ctor_origin a e Hae Hne) as (e0 & He0 & Hc0).
    apply (Hcomplete' a e0); congruence.
Qed.

End Ctor.

(** ** The destructor keeps the registries *)

Section Dtor.
Variables (σ σ' : state) (x : addr) (self : PyExecutable) (cl : PyClient)
  (A B : list addr).
Hypothesis Hlive : execs σ !! x = Some self.
Hypothesis Hcl : clients σ !! client_ self = Some cl.
Hypothesis HR : registry_at σ (client_ self) (A ++ x :: B).
Hypothesis Hclients :
  clients σ' =
    if decide (executables_ cl = Some x)
    then <[client_ self := {| executables_ := next_ self |}]> (clients σ)
    else clients σ.
Hypothesis Hexecs :
  ∀ a, execs σ' !! a =
       if decide (a = x) then None
       else if decide (prev_ self = Some a) then
         set_next (next_ self) <$> execs σ !! a
       else if decide (next_ self = Some a) then
         set_prev (prev_ self) <$> execs σ !! a
       else execs σ !! a.

Lemma dtor_neighbours : prev_ self = last A ∧ next_ self = head B.
Proof using Hlive HR.
  destruct HR as (_ & _ & Hl & _).
  destruct (Hl A x B eq_refl) as (e & He & _ & ? & ?). by simplify_eq.
Qed.

Lemma dtor_distinct :
  NoDup A ∧ NoDup B ∧ (x ∉ A) ∧ (x ∉ B) ∧ (∀ a, a ∈ A → a ∉ B) ∧
  NoDup (A ++ B).
Proof using HR.
  destruct HR as (_ & Hnd & _).
  apply NoDup_app in Hnd as (HA & HAB & HB).
  apply NoDup_cons in HB as (HxB & HB).
  split_and!; try done.
  - intros Hx. apply (HAB x Hx). left.
  - intros a Ha Hb. apply (HAB a Ha). by right.
  - apply NoDup_app. split_and!; [done| |done].
    intros a Ha Hb. apply (HAB a Ha). by right.
Qed.

Lemma dtor_origin (a : addr) (e : PyExecutable) :
  execs σ' !! a = Some e →
  a ≠ x ∧ ∃ e0, execs σ !! a = Some e0 ∧ client_ e = client_ e0.
Proof using All.
  intros Hae. rewrite Hexecs in Hae.
  case_decide; [done|]. split; [done|].
  repeat case_decide;
    destruct (execs σ !! a) as [e0|]; simplify_eq/=; eauto.
Qed.

Lemma dtor_registry_here : registry_at σ' (client_ self) (A ++ B).
Proof using All.
  destruct dtor_neighbours as [Hprev Hnext].
  destruct dtor_distinct as (HA & HB & HxA & HxB & HAB & HndAB).
  destruct (registry_head_live _ _ _ _ HR Hcl) as [Hhead _].
  destruct HR as (_ & _ & Hl & Hcomplete).
  split_and!.
  - rewrite Hclients, Hhead. destruct A as [|a0 A'].
    + cbn [app head]. rewrite decide_True by done.
      exists {| executables_ := next_ self |}.
      by rewrite lookup_insert_eq.
    + cbn [app head]. rewrite decide_False.
      { exists cl. by rewrite Hhead. }
      intros [= ->]. apply HxA. left.
  - done.
  - intros L1 a L2 Heq.
    assert (Ha : a ∈ A ++ B)
      by (rewrite Heq; apply elem_of_app; right; left).
    apply elem_of_app in Ha as [Ha|Ha].
    + assert (a ≠ x) by (intros ->; done).
      assert (a ∉ B) by auto.
      apply list_elem_of_split in Ha as (A1 & A2 & HA12).
      assert (L1 = A1 ∧ L2 = A2 ++ B) as [-> ->].
      { rewrite HA12, <- app_assoc in Heq. simpl in Heq.
        rewrite HA12, <- app_assoc in HndAB. simpl in HndAB.
        by destruct (NoDup_split_unique _ _ _ _ _ HndAB Heq) as [<- <-]. }
      destruct (Hl A1 a (A2 ++ x :: B)) as (e & He & Hce & Hpe & Hne).
      { rewrite HA12, <- app_assoc. done. }
      rewrite Hexecs, decide_False by done.
      rewrite Hprev, Hnext, HA12, last_app_cons.
      destruct A2 as [|z A2].
      * cbn [last]. rewrite decide_True by done. rewrite He.
        exists (set_next (head B) e). done.
      * rewrite last_cons_cons.
        rewrite decide_False.
        2:{ intros Hz. apply last_Some_elem_of in Hz.
            rewrite HA12 in HA. apply NoDup_app in HA as (_ & _ & HA).
            apply NoDup_cons in HA as [HA _]. done. }
        rewrite decide_False.
        2:{ intros Hz. apply head_Some_elem_of in Hz. done. }
        exists e. split_and!; done.
    + assert (a ≠ x) by (intros ->; done).
      assert (a ∉ A) by (intros ?; by eapply HAB).
      apply list_elem_of_split in Ha as (B1 & B2 & HB12).
      assert (L1 = A ++ B1 ∧ L2 = B2) as [-> ->].
      { rewrite HB12, app_assoc in Heq.
        rewrite HB12, app_assoc in HndAB.
        by destruct (NoDup_split_unique _ _ _ _ _ HndAB Heq) as [<- <-]. }
      destruct (Hl (A ++ x :: B1) a B2) as (e & He & Hce & Hpe & Hne).
      { rewrite HB12, <- app_assoc. done. }
      rewrite Hexecs, decide_False by done.
      rewrite Hprev, Hnext.
      rewrite decide_False.
      2:{ intros Hz. apply last_Some_elem_of in Hz. done. }
      rewrite HB12. destruct B1 as [|z B1].
      * cbn [app head]. rewrite decide_True by done. rewrite He.
        exists (set_prev (last A) e). rewrite app_nil_r. done.
      * cbn [app head]. rewrite decide_False.
        2:{ intros [= ->]. rewrite HB12 in HB.
            simpl in HB. apply NoDup_cons in HB as [HB _].
            apply HB. apply elem_of_app. right. left. }
        exists e. split_and!; [done..| |done].
        rewrite Hpe. rewrite !last_app_cons. done.
  - intros a e Hae Hc. destruct (dtor_origin a e Hae) as (Hne & e0 & He0 & Hc0).
    assert (Hin : a ∈ A ++ x :: B) by (apply (Hcomplete a e0); congruence).
    apply elem_of_app in Hin as [Hin|Hin]; apply elem_of_app; [by left|].
    apply elem_of_cons in Hin as [Hin|Hin]; [done|by right].
Qed.

Lemma dtor_registry_elsewhere (c' : addr) (L' : list addr) :
  c' ≠ client_ self → registry_at σ c' L' → registry_at σ' c' L'.
Proof using All.
  intros Hc' ((cl' & Hcl' & Hhead') & Hnd' & Hl' & Hcomplete').
  destruct dtor_neighbours as [Hprev Hnext].
  destruct HR as (_ & _ & Hl & _).
  split_and!.
  - exists cl'. split; [|done]. rewrite Hclients.
    case_decide; [by rewrite lookup_insert_ne|done].
  - done.
  - intros L1 a L2 Heq. destruct (Hl' L1 a L2 Heq) as (e & He & Hce & Hpn).
    exists e. split; [|done].
    assert (Hout : a ∉ A ++ x :: B).
    { intros Hin. destruct (linked_node _ _ _ _ Hl Hin) as (e' & ? & ?).
      congruence. }
    rewrite Hexecs, decide_False.
    2:{ intros ->. apply Hout, elem_of_app. right. left. }
    rewrite decide_False.
    2:{ rewrite Hprev. intros Hz%last_Some_elem_of.
        apply Hout, elem_of_app. by left. }
    rewrite decide_False; [done|].
    rewrite Hnext. intros Hz%head_Some_elem_of.
    apply Hout, elem_of_app. right. by right.
  - intros a e Hae Hc. destruct (dtor_origin a e Hae) as (Hne & e0 & He0 & Hc0).
    apply (Hcomplete' a e0); congruence.
Qed.

End Dtor.

(** ** Construction and destruction in a well-formed store *)

Lemma initial_wf (σ : state) : initial σ → wf σ.
Proof.
  intros (_ & Hempty & Hnull). split.
  - intros a e Hae. by rewrite Hempty, lookup_empty in Hae.
  - intros c [cl Hcl]. exists []. split_and!.
    + exists cl. split; [done|]. by apply (Hnull c).
    + constructor.
    + intros L1 a L2 Heq. by destruct L1.
    + intros a e Hae. by rewrite Hempty, lookup_empty in Hae.
Qed.

Lemma new_preserves (σ : state) (this client : addr) (ex : PjRtExecutable)
    (tb : Traceback) (fp : option string) :
  wf σ → gil σ = true → execs σ !! this = None →
  is_Some (clients σ !! client) →
  ∃ σ',
    new_PyExecutable this client ex tb fp σ = Ret (tt, σ') ∧
    gil σ' = true ∧ wf σ' ∧
    (∀ c, is_Some (clients σ' !! c) ↔ is_Some (clients σ !! c)) ∧
    (∀ a, a ≠ this → is_Some (execs σ' !! a) ↔ is_Some (execs σ !! a)) ∧
    is_Some (execs σ' !! this) ∧
    (∀ L, registry_at σ client L → registry_at σ' client (this :: L)) ∧
    (∀ c L, c ≠ client → registry_at σ c L → registry_at σ' c L).
Proof.
  intros Hwf Hgil Hfresh [cl Hcl].
  destruct (proj2 Hwf client) as [L HR]; [by eexists|].
  destruct (registry_head_live _ _ _ _ HR Hcl) as [Hhead Hhd].
  destruct (ctor_spec this client ex tb fp σ cl Hgil Hfresh Hcl)
    as (σ' & Hrun & Hg & _ & Hc & Hx).
  { intros n Hn. destruct (Hhd n Hn) as (_ & e & He & _). by eexists. }
  set (obj := {| client_ := client; prev_ := nullptr;
                 next_ := executables_ cl |}) in Hx.
  assert (Hobj : client_ obj = client ∧ prev_ obj = nullptr ∧
                 next_ obj = executables_ cl) by done.
  assert (Hdom : ∀ c, is_Some (clients σ' !! c) ↔ is_Some (clients σ !! c)).
  { intros c. rewrite Hc, lookup_insert_is_Some. split.
    - intros [<-|[_ ?]]; [by eexists|done].
    - intros Hs. destruct (decide (client = c)); [by left|by right]. }
  exists σ'. split_and!.
  - unfold new_PyExecutable. by rewrite Hfresh.
  - done.
  - split.
    + intros a e Hae. apply Hdom.
      destruct (decide (a = this)) as [->|Hne].
      * rewrite Hx, decide_True in Hae by done. simplify_eq. by eexists.
      * destruct (ctor_origin σ σ' this client cl obj Hfresh Hcl Hobj Hc Hx
                    a e Hae Hne)
          as (e0 & He0 & ->).
        by apply (proj1 Hwf a).
    + intros c Hc'. apply Hdom in Hc'.
      destruct (decide (c = client)) as [->|Hne].
      * exists (this :: L).
        by apply (ctor_registry_here σ σ' this client cl obj).
      * destruct (proj2 Hwf c Hc') as [L' HR'].
        exists L'.
        by apply (ctor_registry_elsewhere σ σ' this client cl obj
                    Hfresh Hcl Hobj Hc Hx L).
  - done.
  - intros a Hne. rewrite Hx, decide_False by done.
    case_decide; [|done]. by rewrite fmap_is_Some.
  - rewrite Hx, decide_True by done. by eexists.
  - intros L0 HR0.
    by apply (ctor_registry_here σ σ' this client cl obj).
  - intros c L' Hne HR'.
    by apply (ctor_registry_elsewhere σ σ' this client cl obj
                Hfresh Hcl Hobj Hc Hx L).
Qed.

Lemma delete_preserves (σ : state) (x : addr) (self : PyExecutable) :
  wf σ → gil σ = true → execs σ !! x = Some self →
  ∃ σ',
    PyExecutable_delete x σ = Ret (tt, σ') ∧
    gil σ' = true ∧ wf σ' ∧
    (∀ c, is_Some (clients σ' !! c) ↔ is_Some (clients σ !! c)) ∧
    (∀ a, a ≠ x → is_Some (execs σ' !! a) ↔ is_Some (execs σ !! a)) ∧
    execs σ' !! x = None ∧
    (∀ c A B, registry_at σ c (A ++ x :: B) → registry_at σ' c (A ++ B)) ∧
    (∀ c L, x ∉ L → registry_at σ c L → registry_at σ' c L).
Proof.
  intros Hwf Hgil Hlive.
  destruct (proj1 Hwf x self Hlive) as [cl Hcl].
  destruct (proj2 Hwf (client_ self)) as [L HR]; [by eexists|].
  assert (Hin : x ∈ L) by (by apply (proj2 (proj2 (proj2 HR)) x self)).
  apply list_elem_of_split in Hin as (A & B & ->).
  destruct (dtor_neighbours σ x self A B Hlive HR) as [Hprev Hnext].
  destruct (dtor_distinct σ x self A B HR)
    as (HA & HB & HxA & HxB & HAB & HndAB).
  assert (Hl : linked (execs σ) (client_ self) (A ++ x :: B)) by apply HR.
  destruct (delete_spec x self cl σ Hgil Hlive Hcl)
    as (σ' & Hrun & Hg & _ & Hc & Hx).
  { intros p Hp. rewrite Hprev in Hp. apply last_Some_elem_of in Hp.
    split; [by intros ->|].
    destruct (linked_node _ _ _ p Hl) as (e & He & _); [|by eexists].
    apply elem_of_app. by left. }
  { intros n Hn. rewrite Hnext in Hn. apply head_Some_elem_of in Hn.
    split; [by intros ->|].
    destruct (linked_node _ _ _ n Hl) as (e & He & _); [|by eexists].
    apply elem_of_app. right. by right. }
  { intros a Hp Hn. rewrite Hprev in Hp. rewrite Hnext in Hn.
    apply last_Some_elem_of in Hp. apply head_Some_elem_of in Hn.
    by apply (HAB a). }
  assert (Hdom : ∀ c, is_Some (clients σ' !! c) ↔ is_Some (clients σ !! c)).
  { intros c. rewrite Hc. case_decide; [|done].
    rewrite lookup_insert_is_Some. split.
    - intros [<-|[_ ?]]; [by eexists|done].
    - intros Hs. destruct (decide (client_ self = c)); [by left|by right]. }
  assert (Hhere : ∀ c A' B',
    registry_at σ c (A' ++ x :: B') → registry_at σ' c (A' ++ B')).
  { intros c A' B' HR'.
    assert (c = client_ self) as ->.
    { destruct (proj1 (proj2 (proj2 HR')) A' x B' eq_refl)
        as (e & He & Hce & _). congruence. }
    by apply (dtor_registry_here σ σ' x self cl A' B'). }
  assert (Hthere : ∀ c L', x ∉ L' →
    registry_at σ c L' → registry_at σ' c L').
  { intros c L' Hout HR'.
    apply (dtor_registry_elsewhere σ σ' x self cl A B); try done.
    intros ->. apply Hout. by apply (proj2 (proj2 (proj2 HR')) x self). }
  exists σ'. split_and!; try done.
  - split.
    + intros a e Hae. apply Hdom.
      destruct (dtor_origin σ σ' x self cl A B Hlive Hcl HR Hc Hx a e Hae)
        as (_ & e0 & He0 & ->).
      by apply (proj1 Hwf a).
    + intros c Hc'. apply Hdom in Hc'.
      destruct (decide (c = client_ self)) as [->|Hne].
      * exists (A ++ B). by apply Hhere.
      * destruct (proj2 Hwf c Hc') as [L' HR'].
        exists L'. apply Hthere; [|done].
        intros Hin. destruct (linked_node _ _ _ x (proj1 (proj2 (proj2 HR'))) Hin)
          as (e & He & Hce). congruence.
  - intros a Hne. rewrite Hx, decide_False by done.
    repeat case_decide; by rewrite ?fmap_is_Some.
  - by rewrite Hx, decide_True.
Qed.



(** ** Histories *)

Lemma bind_Ret_inv {A B} (m : M A) (k : A → M B) (σ : state) (r : B * state) :
  bind m k σ = Ret r → ∃ a σ1, m σ = Ret (a, σ1) ∧ k a σ1 = Ret r.
Proof.
  unfold bind. destruct (m σ) as [[a σ1]| |]; [|done..]. eauto.
Qed.

Lemma ctor_returns_client (this client : addr) (ex : PjRtExecutable)
    (tb : Traceback) (fp : option string) (σ : state) (r : unit * state) :
  PyExecutable_ctor this client ex tb fp σ = Ret r →
  is_Some (clients σ !! client).
Proof.
  unfold PyExecutable_ctor, bind, begin_lifetime, CHECK_PyGILState, load_exec,
    load_client.
  cbn [gil with_execs execs clients].
  destruct (gil σ); [|done]. cbn [with_execs execs].
  rewrite lookup_insert_eq. cbn [client_ clients with_execs].
  destruct (clients σ !! client); [by eexists|done].
Qed.

Lemma delete_returns_live (x : addr) (σ : state) (r : unit * state) :
  PyExecutable_delete x σ = Ret r → is_Some (execs σ !! x).
Proof.
  unfold PyExecutable_delete, PyExecutable_dtor, bind, CHECK_PyGILState,
    load_exec.
  destruct (gil σ); [|done].
  destruct (execs σ !! x); [by eexists|done].
Qed.

Lemma run_op_preserves (o : op) (σ σ' : state) :
  wf σ → gil σ = true → run_op o σ = Ret (tt, σ') →
  wf σ' ∧ gil σ' = true ∧
  ∀ c, is_Some (clients σ' !! c) ↔ is_Some (clients σ !! c).
Proof.
  intros Hwf Hgil Hrun. destruct o as [this client ex tb fp|x]; simpl in Hrun.
  - unfold new_PyExecutable in Hrun.
    destruct (execs σ !! this) eqn:Hfresh; [done|].
    pose proof (ctor_returns_client _ _ _ _ _ _ _ Hrun) as Hcl.
    destruct (new_preserves σ this client ex tb fp Hwf Hgil Hfresh Hcl)
      as (σ1 & Hrun1 & ? & ? & ? & _).
    unfold new_PyExecutable in Hrun1. rewrite Hfresh in Hrun1.
    rewrite Hrun in Hrun1. by simplify_eq.
  - destruct (delete_returns_live _ _ _ Hrun) as [self Hlive].
    destruct (delete_preserves σ x self Hwf Hgil Hlive)
      as (σ1 & Hrun1 & ? & ? & ? & _).
    rewrite Hrun in Hrun1. by simplify_eq.
Qed.

Lemma run_trace_preserves (ops : list op) (σ σ' : state) :
  wf σ → gil σ = true → run_trace ops σ = Ret (tt, σ') →
  wf σ' ∧ gil σ' = true ∧
  ∀ c, is_Some (clients σ' !! c) ↔ is_Some (clients σ !! c).
Proof.
  revert σ. induction ops as [|o ops IH]; intros σ Hwf Hgil Hrun.
  - unfold run_trace, ret in Hrun. by simplify_eq.
  - cbn [run_trace] in Hrun.
    apply bind_Ret_inv in Hrun as ([] & σ1 & Ho & Hrest).
    destruct (run_op_preserves o σ σ1 Hwf Hgil Ho) as (Hwf1 & Hgil1 & Hdom1).
    destruct (IH σ1 Hwf1 Hgil1 Hrest) as (? & ? & Hdom).
    split_and!; [done..|]. intros c. by rewrite Hdom.
Qed.

Lemma wf_links_live (σ : state) (a p : addr) (e : PyExecutable) :
  wf σ → execs σ !! a = Some e →
  prev_ e = Some p ∨ next_ e = Some p →
  ∃ e', execs σ !! p = Some e' ∧ client_ e' = client_ e.
Proof.
  intros Hwf Hae Hlink.
  destruct (proj2 Hwf (client_ e)) as [L HR]; [by apply (proj1 Hwf a)|].
  destruct HR as (_ & _ & Hl & Hcomplete).
  assert (Hin : a ∈ L) by (by apply (Hcomplete a e)).
  apply list_elem_of_split in Hin as (L1 & L2 & ->).
  destruct (Hl L1 a L2 eq_refl) as (e0 & He0 & _ & Hp & Hn). simplify_eq.
  apply (linked_node _ _ _ p Hl).
  destruct Hlink as [Hlink|Hlink].
  - rewrite Hp in Hlink. apply last_Some_elem_of in Hlink.
    apply elem_of_app. by left.
  - rewrite Hn in Hlink. apply head_Some_elem_of in Hlink.
    apply elem_of_app. right. by right.
Qed.

(** C2.  After any history of constructions and destructions that starts
    before any executable exists, the registry of every client is a
    consistent doubly-linked list: the walk from the head along [next_]
    ends and yields a list [L] without repetition, the walk from the last
    node of [L] along [prev_] ends and yields [L] reversed, [L] holds
    exactly the live executables of the client, and no link of a live
    executable names storage without a live executable. *)
Theorem registry_links_consistent (σ0 σ : state) (ops : list op) (c : addr) :
  initial σ0 →
  run_trace ops σ0 = Ret (tt, σ) →
  is_Some (clients σ !! c) →
  ∃ L,
    NoDup L ∧
    (∀ fuel, length L ≤ fuel →
       read_registry fuel σ c = Some L ∧
       traverse_prev fuel (execs σ) (last L) = Some (reverse L)) ∧
    (∀ a, a ∈ L ↔ ∃ e, execs σ !! a = Some e ∧ client_ e = c) ∧
    (∀ a e p, execs σ !! a = Some e →
       prev_ e = Some p ∨ next_ e = Some p → is_Some (execs σ !! p)).
Proof.
  intros Hinit Hrun Hc.
  destruct (run_trace_preserves ops σ0 σ (initial_wf _ Hinit) (proj1 Hinit) Hrun)
    as (Hwf & _ & _).
  destruct (proj2 Hwf c Hc) as [L HR].
  exists L. split_and!.
  - apply HR.
  - intros fuel Hfuel. split; [by apply registry_at_read|].
    destruct HR as (_ & _ & Hl & _).
    apply (linked_traverse_prev _ c L Hl L []); [|done].
    by rewrite app_nil_r.
  - intros a. split.
    + intros Hin. eapply linked_node; [apply HR|done].
    + intros (e & He & Hce). by apply (proj2 (proj2 (proj2 HR)) a e).
  - intros a e p Hae Hlink.
    destruct (wf_links_live σ a p e Hwf Hae Hlink) as (e' & He' & _).
    by eexists.
Qed.

Lemma build_registry (c : addr) (ex : addr → PjRtExecutable)
    (tb : addr → Traceback) (fp : addr → option string) (es : list addr) :
  ∀ σ L0,
    wf σ → gil σ = true → registry_at σ c L0 → NoDup es →
    (∀ e, e ∈ es → execs σ !! e = None) →
    ∃ σ',
      run_trace (map (λ e, New e c (ex e) (tb e) (fp e)) es) σ = Ret (tt, σ') ∧
      wf σ' ∧ gil σ' = true ∧
      registry_at σ' c (reverse es ++ L0) ∧
      (∀ e, e ∈ es → is_Some (execs σ' !! e)).
Proof.
  induction es as [|e es IH]; intros σ L0 Hwf Hgil HR Hnd Hfresh.
  - exists σ. split_and!; try done. intros e Hin. by apply elem_of_nil in Hin.
  - apply NoDup_cons in Hnd as [Hnotin Hnd].
    assert (Hcl : is_Some (clients σ !! c)).
    { destruct HR as ((cl & Hcl & _) & _). by eexists. }
    destruct (new_preserves σ e c (ex e) (tb e) (fp e) Hwf Hgil
                (Hfresh e ltac:(left)) Hcl)
      as (σ1 & Hrun1 & Hgil1 & Hwf1 & _ & Hothers & Hnew & Hhere & _).
    destruct (IH σ1 (e :: L0) Hwf1 Hgil1 (Hhere L0 HR) Hnd)
      as (σ' & Hrun & Hwf' & Hgil' & HR' & Hlive').
    { intros a Ha. apply eq_None_not_Some. rewrite Hothers.
      - rewrite Hfresh; [by intros [? ?]|by right].
      - by intros ->. }
    exists σ'. split_and!; try done.
    + cbn [map run_trace run_op]. unfold bind. by rewrite Hrun1.
    + by rewrite reverse_cons, <- app_assoc.
    + intros a [->|Ha]%elem_of_cons; [|by apply Hlive'].
      assert (Hin : e ∈ reverse es ++ e :: L0)
        by (apply elem_of_app; right; left).
      destruct (linked_node _ _ _ e (proj1 (proj2 (proj2 HR'))) Hin)
        as (e' & He' & _).
      by eexists.
Qed.

(** C1.  Order of the registry: when [N] executables are constructed in
    the order [es] on a client whose registry is empty, the client reads
    them from the head in the opposite order, most recent first; and for
    every position [K], destroying the executable constructed [K]-th
    leaves the same sequence without that executable. *)
Theorem registry_most_recent_first (σ : state) (c : addr)
    (ex : addr → PjRtExecutable) (tb : addr → Traceback)
    (fp : addr → option string) (es : list addr) :
  wf σ → gil σ = true →
  registry_at σ c [] →
  NoDup es →
  (∀ e, e ∈ es → execs σ !! e = None) →
  ∃ σ',
    run_trace (map (λ e, New e c (ex e) (tb e) (fp e)) es) σ = Ret (tt, σ') ∧
    (∀ fuel, length es ≤ fuel → read_registry fuel σ' c = Some (reverse es)) ∧
    ∀ K eK, es !! K = Some eK →
      ∃ σ'',
        PyExecutable_delete eK σ' = Ret (tt, σ'') ∧
        execs σ'' !! eK = None ∧
        ∀ fuel, length es ≤ S fuel →
          read_registry fuel σ'' c = Some (reverse (delete K es)).
Proof.
  intros Hwf Hgil HR Hnd Hfresh.
  destruct (build_registry c ex tb fp es σ [] Hwf Hgil HR Hnd Hfresh)
    as (σ' & Hrun & Hwf' & Hgil' & HR' & Hlive').
  rewrite app_nil_r in HR'.
  exists σ'. split_and!; [done| |].
  - intros fuel Hfuel. apply registry_at_read; [done|].
    by rewrite length_reverse.
  - intros K eK HK.
    destruct (Hlive' eK) as [self Hself].
    { by eapply list_elem_of_lookup_2. }
    destruct (delete_preserves σ' eK self Hwf' Hgil' Hself)
      as (σ'' & Hdel & _ & _ & _ & _ & Hgone & Hhere & _).
    exists σ''. split_and!; [done..|].
    apply list_elem_of_split_length in HK as (E1 & E2 & -> & ->).
    rewrite reverse_app, reverse_cons, <- app_assoc in HR'. simpl in HR'.
    apply Hhere in HR'.
    intros fuel Hfuel. rewrite delete_middle, reverse_app.
    apply registry_at_read; [done|].
    rewrite length_app, !length_reverse.
    rewrite length_app in Hfuel. simpl in Hfuel. lia.
Qed.

End Registry.

(** * Further properties of the constructor, the destructor and the calls *)

Section Further.
Context `{RT : Runtime}.

(** ** The two store lemmas in a well-formed store *)

Lemma wf_new_lookup (σ : state) (this client : addr) (ex : PjRtExecutable)
    (tb : Traceback) (fp : option string) (cl : PyClient) :
  wf σ → gil σ = true → execs σ !! this = None →
  clients σ !! client = Some cl →
  ∃ σ',
    PyExecutable_ctor this client ex tb fp σ = Ret (tt, σ') ∧
    gil σ' = true ∧ world σ' = world σ ∧
    clients σ' = <[client := {| executables_ := Some this |}]> (clients σ) ∧
    (∀ n, executables_ cl = Some n →
          n ≠ this ∧ ∃ en, execs σ !! n = Some en ∧ prev_ en = nullptr) ∧
    ∀ a, execs σ' !! a =
         if decide (a = this) then
           Some {| client_ := client; executable_ := ex; traceback_ := tb;
                   fingerprint_ := fp;
                   options_ :=
                     {| untuple_result := true;
                        launch_id :=
                          match fp with
                          | Some F => int32_of_uint32 (Fingerprint32 F)
                          | None => launch_id ExecuteOptions_default
                          end |};
                   prev_ := nullptr; next_ := executables_ cl |}
         else if decide (executables_ cl = Some a) then
           set_prev (Some this) <$> execs σ !! a
         else execs σ !! a.
Proof.
  intros Hwf Hgil Hfresh Hcl.
  destruct (proj2 Hwf client) as [L HR]; [by eexists|].
  destruct (registry_head_live _ _ _ _ HR Hcl) as [Hhead Hhd].
  destruct (ctor_spec this client ex tb fp σ cl Hgil Hfresh Hcl)
    as (σ' & Hrun & Hg & Hw & Hc & Hx).
  { intros n Hn. destruct (Hhd n Hn) as (_ & e & He & _). by eexists. }
  exists σ'. split_and!; try done.
  intros n Hn. rewrite Hhead in Hn.
  destruct L as [|n' L]; [done|]. injection Hn as ->.
  destruct (proj1 (proj2 (proj2 HR)) [] n L eq_refl) as (e & He & _ & Hp & _).
  split; [congruence|]. by exists e.
Qed.

Lemma wf_delete_lookup (σ : state) (x : addr) (self : PyExecutable) :
  wf σ → gil σ = true → execs σ !! x = Some self →
  ∃ σ' cl,
    PyExecutable_delete x σ = Ret (tt, σ') ∧
    gil σ' = true ∧ world σ' = world σ ∧
    clients σ !! client_ self = Some cl ∧
    clients σ' =
      (if decide (executables_ cl = Some x)
       then <[client_ self := {| executables_ := next_ self |}]> (clients σ)
       else clients σ) ∧
    ∀ a, execs σ' !! a =
         if decide (a = x) then None
         else if decide (prev_ self = Some a) then
           set_next (next_ self) <$> execs σ !! a
         else if decide (next_ self = Some a) then
           set_prev (prev_ self) <$> execs σ !! a
         else execs σ !! a.
Proof.
  intros Hwf Hgil Hlive.
  destruct (proj1 Hwf x self Hlive) as [cl Hcl].
  destruct (proj2 Hwf (client_ self)) as [L HR]; [by eexists|].
  assert (Hin : x ∈ L) by (by apply (proj2 (proj2 (proj2 HR)) x self)).
  apply list_elem_of_split in Hin as (A & B & ->).
  destruct (dtor_neighbours σ x self A B Hlive HR) as [Hprev Hnext].
  destruct (dtor_distinct σ x self A B HR)
    as (HA & HB & HxA & HxB & HAB & HndAB).
  assert (Hl : linked (execs σ) (client_ self) (A ++ x :: B)) by apply HR.
  destruct (delete_spec x self cl σ Hgil Hlive Hcl)
    as (σ' & Hrun & Hg & Hw & Hc & Hx).
  { intros p Hp. rewrite Hprev in Hp. apply last_Some_elem_of in Hp.
    split; [by intros ->|].
    destruct (linked_node _ _ _ p Hl) as (e & He & _); [|by eexists].
    apply elem_of_app. by left. }
  { intros n Hn. rewrite Hnext in Hn. apply head_Some_elem_of in Hn.
    split; [by intros ->|].
    destruct (linked_node _ _ _ n Hl) as (e & He & _); [|by eexists].
    apply elem_of_app. right. by right. }
  { intros a Hp Hn. rewrite Hprev in Hp. rewrite Hnext in Hn.
    apply last_Some_elem_of in Hp. apply head_Some_elem_of in Hn.
    by apply (HAB a). }
  exists σ', cl. split_and!; done.
Qed.

(** ** Histories against the registry of the spec *)

Lemma filter_ne_absent (x : addr) (L : list addr) :
  x ∉ L → filter (λ a, a ≠ x) L = L.
Proof.
  induction L as [|y L IH]; intros Hx; [done|].
  apply not_elem_of_cons in Hx as [Hne Hx].
  rewrite filter_cons_True by congruence. by rewrite IH.
Qed.

Lemma filter_ne_middle (x : addr) (A B : list addr) :
  NoDup (A ++ x :: B) → filter (λ a, a ≠ x) (A ++ x :: B) = A ++ B.
Proof.
  intros Hnd. apply NoDup_app in Hnd as (_ & HAB & HB).
  apply NoDup_cons in HB as (HxB & _).
  rewrite filter_app, filter_cons_False by (by intros ?).
  rewrite !filter_ne_absent; [done|done|].
  intros Hx. apply (HAB x Hx). left.
Qed.

Lemma run_op_registry (o : op) (σ σ' : state) (c : addr) (L : list addr) :
  wf σ → gil σ = true → run_op o σ = Ret (tt, σ') →
  registry_at σ c L →
  registry_at σ' c (spec_registry_after [o] c L).
Proof.
  intros Hwf Hgil Hrun HR.
  destruct o as [this client ex tb fp|x]; cbn [run_op spec_registry_after] in *.
  - unfold new_PyExecutable in Hrun.
    destruct (execs σ !! this) eqn:Hfresh; [done|].
    pose proof (ctor_returns_client _ _ _ _ _ _ _ Hrun) as Hcl.
    destruct (new_preserves σ this client ex tb fp Hwf Hgil Hfresh Hcl)
      as (σ1 & Hrun1 & _ & _ & _ & _ & _ & Hhere & Hthere).
    unfold new_PyExecutable in Hrun1. rewrite Hfresh, Hrun in Hrun1.
    simplify_eq. case_decide; [subst; by apply Hhere|by apply Hthere].
  - destruct (delete_returns_live _ _ _ Hrun) as [self Hlive].
    destruct (delete_preserves σ x self Hwf Hgil Hlive)
      as (σ1 & Hrun1 & _ & _ & _ & _ & _ & Hhere & Hthere).
    rewrite Hrun in Hrun1. simplify_eq.
    destruct (decide (x ∈ L)) as [Hin|Hout].
    + apply list_elem_of_split in Hin as (A & B & ->).
      rewrite filter_ne_middle by apply HR. by apply Hhere.
    + rewrite filter_ne_absent by done. by apply Hthere.
Qed.

Lemma run_trace_registry (ops : list op) :
  ∀ σ σ' c L,
    wf σ → gil σ = true → run_trace ops σ = Ret (tt, σ') →
    registry_at σ c L →
    registry_at σ' c (spec_registry_after ops c L).
Proof.
  induction ops as [|o ops IH]; intros σ σ' c L Hwf Hgil Hrun HR.
  - unfold run_trace, ret in Hrun. by simplify_eq.
  - cbn [run_trace] in Hrun.
    apply bind_Ret_inv in Hrun as ([] & σ1 & Ho & Hrest).
    destruct (run_op_preserves o σ σ1 Hwf Hgil Ho) as (Hwf1 & Hgil1 & _).
    pose proof (run_op_registry o σ σ1 c L Hwf Hgil Ho HR) as HR1.
    specialize (IH σ1 σ' c _ Hwf1 Hgil1 Hrest HR1).
    by destruct o.
Qed.

(** X1.  Refinement of the registry: after every history of constructions
    and destructions that runs from a store without executables, on any
    number of clients and in any interleaving, the walk from a client's
    head reads exactly the list the spec describes: new executables in
    front, destroyed ones taken out, everything else in place. *)
Theorem history_refines_spec_registry (σ0 σ : state) (ops : list op)
    (c : addr) :
  initial σ0 →
  is_Some (clients σ0 !! c) →
  run_trace ops σ0 = Ret (tt, σ) →
  ∀ fuel, length (spec_registry_after ops c []) ≤ fuel →
    read_registry fuel σ c = Some (spec_registry_after ops c []).
Proof.
  intros Hinit Hc Hrun fuel Hfuel.
  pose proof (initial_wf _ Hinit) as Hwf.
  destruct (proj2 Hwf c Hc) as [L HR].
  assert (L = []) as ->.
  { destruct HR as ((cl & Hcl & Hhead) & _).
    rewrite (proj2 (proj2 Hinit) c cl Hcl) in Hhead. by destruct L. }
  apply registry_at_read; [|done].
  by apply (run_trace_registry ops σ0 σ c [] Hwf (proj1 Hinit)).
Qed.

(** ** Construction undone by destruction *)

Lemma state_ext (σ τ : state) :
  gil σ = gil τ → clients σ = clients τ → execs σ = execs τ →
  world σ = world τ → σ = τ.
Proof. destruct σ, τ. cbn. by intros -> -> -> ->. Qed.

(** X2.  Round trip: in a well-formed store with the lock held, constructing
    an executable on fresh storage and destroying it at once gives back the
    store that was there before, links and head pointer included. *)
Theorem new_then_delete_restores (σ : state) (this client : addr)
    (ex : PjRtExecutable) (tb : Traceback) (fp : option string) :
  wf σ → gil σ = true → execs σ !! this = None →
  is_Some (clients σ !! client) →
  ∃ σ1,
    new_PyExecutable this client ex tb fp σ = Ret (tt, σ1) ∧
    PyExecutable_delete this σ1 = Ret (tt, σ).
Proof.
  intros Hwf Hgil Hfresh [cl Hcl].
  destruct (wf_new_lookup σ this client ex tb fp cl Hwf Hgil Hfresh Hcl)
    as (σ1 & Hrun & Hg1 & Hw1 & Hc1 & Hhd & Hx1).
  exists σ1. split.
  { unfold new_PyExecutable. by rewrite Hfresh. }
  pose proof (Hx1 this) as Hself. rewrite decide_True in Hself by done.
  destruct (delete_spec this _ {| executables_ := Some this |} σ1 Hg1 Hself)
    as (σ2 & Hdel & Hg2 & Hw2 & Hc2 & Hx2).
  { cbn [client_]. by rewrite Hc1, lookup_insert_eq. }
  { cbn [prev_]. done. }
  { cbn [next_]. intros n Hn. destruct (Hhd n Hn) as (Hne & en & Hen & _).
    split; [done|]. rewrite Hx1, decide_False, decide_True by done.
    rewrite Hen. by eexists. }
  { cbn [prev_]. done. }
  rewrite Hdel. f_equal. f_equal.
  cbn [client_ prev_ next_ executables_] in Hc2, Hx2.
  rewrite decide_True in Hc2 by done.
  apply state_ext.
  - by rewrite Hg2.
  - rewrite Hc2, Hc1, insert_insert_eq. apply insert_id.
    rewrite Hcl. by destruct cl.
  - apply map_eq. intros a. rewrite Hx2.
    destruct (decide (a = this)) as [->|Hne]; [done|].
    rewrite (decide_False (P := nullptr = Some a)) by done.
    rewrite !Hx1. rewrite !(decide_False (P := a = this)) by done.
    destruct (decide (executables_ cl = Some a)) as [Ha|Ha]; [|done].
    destruct (Hhd a Ha) as (_ & en & Hen & Hp). rewrite Hen. cbn.
    f_equal. destruct en. cbn in *. by subst.
  - by rewrite Hw2.
Qed.

(** ** What a construction or a destruction does to the others *)

Lemma links_only_refl (e : PyExecutable) :
  e = set_prev (prev_ e) (set_next (next_ e) e).
Proof. by destruct e. Qed.

Lemma links_only_step (e e' : PyExecutable) (p n : ptr) :
  e' = set_prev (prev_ e') (set_next (next_ e') e) →
  set_prev p e' = set_prev p (set_next (next_ (set_prev p e')) e) ∧
  set_next n e' = set_prev (prev_ (set_next n e')) (set_next n e).
Proof. intros ->. by destruct e. Qed.

Lemma links_only_trans (e e' e'' : PyExecutable) :
  e' = set_prev (prev_ e') (set_next (next_ e') e) →
  e'' = set_prev (prev_ e'') (set_next (next_ e'') e') →
  e'' = set_prev (prev_ e'') (set_next (next_ e'') e).
Proof. intros -> ->. by destruct e. Qed.

Lemma run_op_links_only (o : op) (σ σ' : state) (a : addr) (e : PyExecutable) :
  wf σ → gil σ = true → run_op o σ = Ret (tt, σ') →
  execs σ !! a = Some e → o ≠ Delete a →
  ∃ e', execs σ' !! a = Some e' ∧
        e' = set_prev (prev_ e') (set_next (next_ e') e).
Proof.
  intros Hwf Hgil Hrun Hae Hno.
  destruct o as [this client ex tb fp|x]; cbn [run_op] in Hrun.
  - unfold new_PyExecutable in Hrun.
    destruct (execs σ !! this) eqn:Hfresh; [done|].
    destruct (ctor_returns_client _ _ _ _ _ _ _ Hrun) as [cl Hcl].
    destruct (wf_new_lookup σ this client ex tb fp cl Hwf Hgil Hfresh Hcl)
      as (σ1 & Hrun1 & _ & _ & _ & _ & Hx).
    rewrite Hrun in Hrun1. simplify_eq.
    rewrite Hx, decide_False by congruence. rewrite Hae.
    case_decide; eexists; (split; [done|]); by destruct e.
  - destruct (delete_returns_live _ _ _ Hrun) as [self Hlive].
    destruct (wf_delete_lookup σ x self Hwf Hgil Hlive)
      as (σ1 & cl & Hrun1 & _ & _ & _ & _ & Hx).
    rewrite Hrun in Hrun1. simplify_eq.
    rewrite Hx, decide_False by congruence. rewrite Hae.
    repeat case_decide; eexists; (split; [done|]); by destruct e.
Qed.

Lemma run_trace_links_only (ops : list op) :
  ∀ σ σ' a e,
    wf σ → gil σ = true → run_trace ops σ = Ret (tt, σ') →
    execs σ !! a = Some e → Delete a ∉ ops →
    ∃ e', execs σ' !! a = Some e' ∧
          e' = set_prev (prev_ e') (set_next (next_ e') e).
Proof.
  induction ops as [|o ops IH]; intros σ σ' a e Hwf Hgil Hrun Hae Hno.
  - unfold run_trace, ret in Hrun. simplify_eq.
    exists e. split; [done|]. apply links_only_refl.
  - cbn [run_trace] in Hrun.
    apply bind_Ret_inv in Hrun as ([] & σ1 & Ho & Hrest).
    destruct (run_op_preserves o σ σ1 Hwf Hgil Ho) as (Hwf1 & Hgil1 & _).
    destruct (run_op_links_only o σ σ1 a e Hwf Hgil Ho Hae) as (e1 & He1 & H1).
    { intros ->. apply Hno. left. }
    destruct (IH σ1 σ' a e1 Hwf1 Hgil1 Hrest He1) as (e' & He' & H').
    { intros Hin. apply Hno. by right. }
    exists e'. split; [done|]. by eapply links_only_trans.
Qed.

(** X3.  Members are fixed at construction: whatever is constructed or
    destroyed afterwards, on the same client or on another, an executable
    that is not itself destroyed stays alive and keeps its client, its
    compiled program, its traceback, its fingerprint and its options; only
    its two links may change. *)
Theorem history_keeps_members (σ σ' : state) (ops : list op) (a : addr)
    (e : PyExecutable) :
  wf σ → gil σ = true →
  run_trace ops σ = Ret (tt, σ') →
  execs σ !! a = Some e →
  Delete a ∉ ops →
  ∃ e',
    execs σ' !! a = Some e' ∧
    client_ e' = client_ e ∧ executable_ e' = executable_ e ∧
    traceback_ e' = traceback_ e ∧ fingerprint_ e' = fingerprint_ e ∧
    options_ e' = options_ e.
Proof.
  intros Hwf Hgil Hrun Hae Hno.
  destruct (run_trace_links_only ops σ σ' a e Hwf Hgil Hrun Hae Hno)
    as (e' & He' & Hlinks).
  exists e'. split; [done|]. rewrite Hlinks. done.
Qed.

Lemma built_members (σ σ' : state) (ops : list op) (this client : addr)
    (ex : PjRtExecutable) (tb : Traceback) (fp : option string) :
  wf σ → gil σ = true →
  run_trace (New this client ex tb fp :: ops) σ = Ret (tt, σ') →
  Delete this ∉ ops →
  ∃ self,
    execs σ' !! this = Some self ∧
    client_ self = client ∧ executable_ self = ex ∧
    traceback_ self = tb ∧ fingerprint_ self = fp ∧
    options_ self =
      {| untuple_result := true;
         launch_id := match fp with
                      | Some F => int32_of_uint32 (Fingerprint32 F)
                      | None => launch_id ExecuteOptions_default
                      end |}.
Proof.
  intros Hwf Hgil Hrun Hno. cbn [run_trace] in Hrun.
  apply bind_Ret_inv in Hrun as ([] & σ1 & Ho & Hrest).
  destruct (run_op_preserves _ σ σ1 Hwf Hgil Ho) as (Hwf1 & Hgil1 & _).
  cbn [run_op] in Ho. unfold new_PyExecutable in Ho.
  destruct (execs σ !! this) eqn:Hfresh; [done|].
  destruct (ctor_returns_client _ _ _ _ _ _ _ Ho) as [cl Hcl].
  destruct (wf_new_lookup σ this client ex tb fp cl Hwf Hgil Hfresh Hcl)
    as (σ2 & Hrun2 & _ & _ & _ & _ & Hx).
  assert (σ2 = σ1) as -> by congruence.
  pose proof (Hx this) as Hself. rewrite decide_True in Hself by done.
  destruct (run_trace_links_only ops σ1 σ' this _ Hwf1 Hgil1 Hrest Hself Hno)
    as (self & Hlive & Hlinks).
  exists self. split; [done|]. rewrite Hlinks. done.
Qed.

(** X4.  An executable runs as it was built: after its construction and
    any later history that does not destroy it, each of the three entry
    points calls the program given to the constructor, with
    [untuple_result] set and, as launch identifier, the hash of the
    constructor's fingerprint converted to the signed 32-bit member (the
    default-constructed value when no fingerprint was given), and tags the
    outputs with the client given to the constructor. *)
Theorem built_executable_runs_as_built (σ σ' : state) (ops : list op)
    (this client : addr) (ex : PjRtExecutable) (tb : Traceback)
    (fp : option string) :
  wf σ → gil σ = true →
  run_trace (New this client ex tb fp :: ops) σ = Ret (tt, σ') →
  Delete this ∉ ops →
  let opts :=
    {| untuple_result := true;
       launch_id := match fp with
                    | Some F => int32_of_uint32 (Fingerprint32 F)
                    | None => launch_id ExecuteOptions_default
                    end |} in
  let wrap tb' :=
    λ b, {| pb_client := client; buffer := b; traceback := tb' |} in
  let after w :=
    {| gil := true; clients := clients σ'; execs := execs σ'; world := w |} in
  (∀ args,
     PyExecutable_PjRtExecute this args σ' =
     match Execute ex args opts (world σ')
       return outcome (StatusOr Status (list PyBuffer) * state) with
     | (NotOk s, w) => Ret (NotOk s, after w)
     | (OkValue obs, w) =>
         Ret (OkValue (map (wrap (Traceback_Get w).1) obs),
              after (Traceback_Get w).2)
     end) ∧
  (∀ args,
     PyExecutable_Execute this args σ' =
     match Execute ex (map buffer args) opts (world σ')
       return outcome (StatusOr Status (list PyBuffer) * state) with
     | (NotOk s, w) => Ret (NotOk s, after w)
     | (OkValue obs, w) =>
         Ret (OkValue (map (wrap (Traceback_Get w).1) obs),
              after (Traceback_Get w).2)
     end) ∧
  (∀ args,
     PyExecutable_ExecuteOnLocalDevices this args σ' =
     match ExecuteOnLocalDevices ex (map (map buffer) args) opts (world σ')
       return outcome (StatusOr Status (list (list PyBuffer)) * state) with
     | (NotOk s, w) => Ret (NotOk s, after w)
     | (OkValue obs, w) =>
         Ret (OkValue (map (map (wrap (Traceback_Get w).1)) obs),
              after (Traceback_Get w).2)
     end).
Proof.
  intros Hwf Hgil Hrun Hno opts wrap after.
  destruct (built_members σ σ' ops this client ex tb fp Hwf Hgil Hrun Hno)
    as (self & Hlive & Hc & He & _ & _ & Ho).
  subst opts wrap after. split_and!; intros args.
  - rewrite (PjRtExecute_run _ self) by done. by rewrite Hc, He, Ho.
  - rewrite Execute_as_PjRtExecute, (PjRtExecute_run _ self) by done.
    by rewrite Hc, He, Ho.
  - rewrite (ExecuteOnLocalDevices_run _ self) by done. by rewrite Hc, He, Ho.
Qed.

(** X5.  The accessors answer for the executable as it was built: after its
    construction and any later history that does not destroy it,
    [LocalDevices] wraps the devices of the program given to the
    constructor with the client given to the constructor, [HloModules]
    hands on what that program reports, an error included, and neither
    changes the store. *)
Theorem built_executable_accessors (σ σ' : state) (ops : list op)
    (this client : addr) (ex : PjRtExecutable) (tb : Traceback)
    (fp : option string) :
  wf σ → gil σ = true →
  run_trace (New this client ex tb fp :: ops) σ = Ret (tt, σ') →
  Delete this ∉ ops →
  PyExecutable_LocalDevices this σ' =
    Ret (map (WrapWithClient client) (local_devices ex), σ') ∧
  PyExecutable_HloModules this σ' = Ret (GetHloModules ex, σ').
Proof.
  intros Hwf Hgil Hrun Hno.
  destruct (built_members σ σ' ops this client ex tb fp Hwf Hgil Hrun Hno)
    as (self & Hlive & Hc & He & _).
  unfold PyExecutable_LocalDevices, PyExecutable_HloModules, bind, load_exec,
    ret.
  rewrite Hlive, push_back_loop, Hc, He. done.
Qed.

(** ** The lock *)

(** X6.  Without the lock nothing is registered or unregistered: when the
    lock is not held, the constructor, the destructor and the destruction
    of an executable abort at their [CHECK], whatever the store holds, also
    when the client or the executable is not alive; the abort comes before
    any link or head pointer is read. *)
Theorem registry_mutation_needs_lock (σ : state) (this client : addr)
    (ex : PjRtExecutable) (tb : Traceback) (fp : option string) :
  gil σ = false →
  PyExecutable_ctor this client ex tb fp σ = CheckFailure ∧
  PyExecutable_dtor this σ = CheckFailure ∧
  PyExecutable_delete this σ = CheckFailure ∧
  ∀ ops, run_trace (Delete this :: ops) σ = CheckFailure.
Proof.
  intros Hgil.
  assert (Hd : PyExecutable_dtor this σ = CheckFailure).
  { unfold PyExecutable_dtor, bind, CHECK_PyGILState. by rewrite Hgil. }
  split_and!.
  - unfold PyExecutable_ctor, bind, begin_lifetime, CHECK_PyGILState.
    cbn [gil with_execs]. by rewrite Hgil.
  - done.
  - unfold PyExecutable_delete, bind. by rewrite Hd.
  - intros ops. cbn [run_trace run_op]. unfold PyExecutable_delete, bind.
    by rewrite Hd.
Qed.

(** ** The outputs and the store of a call *)

(** X7.  Outputs belong to the executable's client: every output handle
    that one of the three entry points returns, in every row for the
    multi-device call, is tagged with the client of the executable that was
    called. *)
Theorem outputs_carry_client (this : addr) (self : PyExecutable) (σ : state) :
  execs σ !! this = Some self →
  (∀ args outputs σ',
     PyExecutable_PjRtExecute this args σ = Ret (OkValue outputs, σ') →
     Forall (λ b, pb_client b = client_ self) outputs) ∧
  (∀ args outputs σ',
     PyExecutable_Execute this args σ = Ret (OkValue outputs, σ') →
     Forall (λ b, pb_client b = client_ self) outputs) ∧
  (∀ args outputs σ',
     PyExecutable_ExecuteOnLocalDevices this args σ
       = Ret (OkValue outputs, σ') →
     Forall (Forall (λ b, pb_client b = client_ self)) outputs).
Proof.
  intros Hlive.
  assert (Hrow : ∀ tb' obs,
    Forall (λ b, pb_client b = client_ self)
      (map (λ b, {| pb_client := client_ self; buffer := b;
                    traceback := tb' |}) obs)).
  { intros tb' obs. apply Forall_forall.
    intros b [? [-> _]]%list_elem_of_fmap. done. }
  split_and!; intros args outputs σ' Hrun.
  - rewrite (PjRtExecute_run _ self) in Hrun by done.
    destruct (Execute _ _ _ _) as [[obs|s] w]; simplify_eq. apply Hrow.
  - rewrite Execute_as_PjRtExecute, (PjRtExecute_run _ self) in Hrun by done.
    destruct (Execute _ _ _ _) as [[obs|s] w]; simplify_eq. apply Hrow.
  - rewrite (ExecuteOnLocalDevices_run _ self) in Hrun by done.
    destruct (ExecuteOnLocalDevices _ _ _ _) as [[obs|s] w]; simplify_eq.
    apply Forall_forall. intros row [? [-> _]]%list_elem_of_fmap. apply Hrow.
Qed.

(** X8.  A failed call captures nothing: when the engine reports a failure
    to a call made with the lock held, the store after the call is the
    store before it with the device state the engine left; the lock is
    held again and [Traceback::Get] has not run.  On success the device
    state is the one left by the engine and then by one capture. *)
Theorem call_changes_device_state_only (this : addr) (self : PyExecutable)
    (σ : state) :
  gil σ = true →
  execs σ !! this = Some self →
  (∀ args,
     PyExecutable_PjRtExecute this args σ =
     match Execute (executable_ self) args (options_ self) (world σ)
       return outcome (StatusOr Status (list PyBuffer) * state) with
     | (NotOk s, w) => Ret (NotOk s, with_world w σ)
     | (OkValue obs, w) =>
         Ret (OkValue (wrap_outputs (client_ self) (Traceback_Get w).1 obs),
              with_world (Traceback_Get w).2 σ)
     end) ∧
  (∀ args,
     PyExecutable_Execute this args σ =
     match Execute (executable_ self) (arg_buffers_of args) (options_ self)
             (world σ)
       return outcome (StatusOr Status (list PyBuffer) * state) with
     | (NotOk s, w) => Ret (NotOk s, with_world w σ)
     | (OkValue obs, w) =>
         Ret (OkValue (wrap_outputs (client_ self) (Traceback_Get w).1 obs),
              with_world (Traceback_Get w).2 σ)
     end) ∧
  (∀ args,
     PyExecutable_ExecuteOnLocalDevices this args σ =
     match ExecuteOnLocalDevices (executable_ self)
             (nested_arg_buffers_of args) (options_ self) (world σ)
       return outcome (StatusOr Status (list (list PyBuffer)) * state) with
     | (NotOk s, w) => Ret (NotOk s, with_world w σ)
     | (OkValue obs, w) =>
         Ret (OkValue
                (wrap_nested_outputs (client_ self) (Traceback_Get w).1 obs),
              with_world (Traceback_Get w).2 σ)
     end).
Proof.
  intros Hgil Hlive.
  assert (Hst : ∀ w,
    {| gil := true; clients := clients σ; execs := execs σ; world := w |}
    = with_world w σ).
  { intros w. unfold with_world. by rewrite Hgil. }
  split_and!; intros args.
  - rewrite (PjRtExecute_run _ self) by done.
    destruct (Execute _ _ _ _) as [[obs|s] w];
      by rewrite Hst, ?wrap_outputs_map.
  - rewrite Execute_as_PjRtExecute, (PjRtExecute_run _ self) by done.
    rewrite arg_buffers_of_map.
    destruct (Execute _ _ _ _) as [[obs|s] w];
      by rewrite Hst, ?wrap_outputs_map.
  - rewrite (ExecuteOnLocalDevices_run _ self) by done.
    rewrite nested_arg_buffers_of_map.
    destruct (ExecuteOnLocalDevices _ _ _ _) as [[obs|s] w];
      by rewrite Hst, ?wrap_nested_outputs_map.
Qed.

(** ** Neighbours *)

(** X9.  Links are mutual: after every history that runs from a store
    without executables, the successor of a live executable is alive, on
    the same client, and has that executable as its predecessor; its
    predecessor is alive, on the same client, and has it as its successor;
    and the executable has no predecessor exactly when its client's head
    pointer names it. *)
Theorem neighbours_point_back (σ0 σ : state) (ops : list op) (a : addr)
    (e : PyExecutable) :
  initial σ0 →
  run_trace ops σ0 = Ret (tt, σ) →
  execs σ !! a = Some e →
  (∀ n, next_ e = Some n →
        ∃ en, execs σ !! n = Some en ∧ prev_ en = Some a ∧
              client_ en = client_ e) ∧
  (∀ p, prev_ e = Some p →
        ∃ ep, execs σ !! p = Some ep ∧ next_ ep = Some a ∧
              client_ ep = client_ e) ∧
  ∃ cl, clients σ !! client_ e = Some cl ∧
        (prev_ e = nullptr ↔ executables_ cl = Some a).
Proof.
  intros Hinit Hrun Hae.
  destruct (run_trace_preserves ops σ0 σ (initial_wf _ Hinit) (proj1 Hinit) Hrun)
    as (Hwf & _ & _).
  destruct (proj1 Hwf a e Hae) as [cl Hcl].
  destruct (proj2 Hwf (client_ e)) as [L HR]; [by eexists|].
  destruct (registry_head_live _ _ _ _ HR Hcl) as [Hhead _].
  destruct HR as (_ & Hnd & Hl & Hcomplete).
  assert (Hin : a ∈ L) by (by apply (Hcomplete a e)).
  apply list_elem_of_split in Hin as (L1 & L2 & ->).
  destruct (Hl L1 a L2 eq_refl) as (e0 & He0 & _ & Hp & Hn). simplify_eq.
  split_and!.
  - intros n Hnext. rewrite Hn in Hnext.
    destruct L2 as [|n' L2]; [done|]. injection Hnext as ->.
    destruct (Hl (L1 ++ [a]) n L2) as (en & Hen & Hcn & Hpn & _).
    { by rewrite <- app_assoc. }
    exists en. split_and!; [done| |done]. by rewrite Hpn, last_snoc.
  - intros p Hprev. rewrite Hp in Hprev.
    apply last_Some in Hprev as [L1' ->].
    destruct (Hl L1' p (a :: L2)) as (ep & Hep & Hcp & _ & Hnp).
    { by rewrite <- app_assoc. }
    exists ep. split_and!; done.
  - exists cl. split; [done|]. rewrite Hp, Hhead. split.
    + intros ->%last_None. done.
    + intros Hh. destruct L1 as [|y L1]; [done|].
      injection Hh as ->. exfalso.
      apply NoDup_cons in Hnd as [Hnotin _].
      apply Hnotin, elem_of_app. right. left.
Qed.

End Further.

(** * The properties on the concrete stores *)

Lemma example_empty_initial : initial example_empty.
Proof.
  split_and!; [done..|]. intros c cl Hc.
  unfold example_empty in Hc. cbn [clients] in Hc.
  apply lookup_singleton_Some in Hc as [_ <-]. done.
Qed.

Lemma example_empty_registry : registry_at example_empty 1%positive [].
Proof.
  split_and!.
  - by eexists.
  - constructor.
  - intros L1 a L2 Heq. by destruct L1.
  - intros a e Hae. done.
Qed.

Lemma registry_most_recent_first_witness :
  wf example_empty ∧ gil example_empty = true ∧
  ∃ σ',
    run_trace
      (map (λ e, @New example_runtime e 1%positive example_echo 0%nat None)
           [5; 6; 7]%positive)
      example_empty = Ret (tt, σ') ∧
    read_registry 3 σ' 1%positive = Some [7; 6; 5]%positive ∧
    ∃ σ'',
      PyExecutable_delete 6%positive σ' = Ret (tt, σ'') ∧
      read_registry 2 σ'' 1%positive = Some [7; 5]%positive.
Proof.
  split; [exact (initial_wf _ example_empty_initial)|].
  split; [reflexivity|].
  destruct (registry_most_recent_first example_empty 1%positive
              (λ _, example_echo) (λ _, 0%nat) (λ _, None) [5; 6; 7]%positive
              (initial_wf _ example_empty_initial) eq_refl
              example_empty_registry
              ltac:(by apply (bool_decide_unpack _))
              ltac:(intros e _; reflexivity))
    as (σ' & Hrun & Hread & Hdel).
  exists σ'. split; [exact Hrun|]. split; [apply (Hread 3); simpl; lia|].
  destruct (Hdel 1 6%positive eq_refl) as (σ'' & Hdelete & _ & Hread').
  exists σ''. split; [exact Hdelete|]. apply (Hread' 2). simpl. lia.
Defined.

Lemma registry_links_consistent_witness :
  initial example_empty ∧
  run_trace example_history example_empty = Ret (tt, example_after) ∧
  ∃ L,
    NoDup L ∧
    read_registry (length L) example_after 1%positive = Some L ∧
    traverse_prev (length L) (execs example_after) (last L) = Some (reverse L) ∧
    (6%positive ∉ L).
Proof.
  split; [exact example_empty_initial|].
  split; [reflexivity|].
  destruct (registry_links_consistent example_empty example_after
              example_history 1%positive example_empty_initial
              eq_refl ltac:(eexists; reflexivity))
    as (L & Hnd & Hwalk & Hexact & _).
  exists L. destruct (Hwalk (length L) ltac:(lia)) as [Hnext Hprev].
  split_and!; [done..|].
  intros Hin. apply Hexact in Hin as (e & He & _).
  change (None = Some e) in He. discriminate He.
Defined.



Lemma Execute_echo_roundtrip_witness :
  execs (example_live example_echo) !! 5%positive
    = Some (example_exec example_echo) ∧
  ∃ outputs σ',
    PyExecutable_Execute 5%positive
      [example_buffer 7; example_buffer 8; example_buffer 7]
      (example_live example_echo) = Ret (OkValue outputs, σ') ∧
    length outputs = 3 ∧
    map buffer outputs = [Some 7; Some 8; Some 7]%positive.
Proof.
  split; [reflexivity|].
  destruct (Execute_echo_roundtrip (RT := example_runtime) 5%positive
              (example_exec example_echo)
              [example_buffer 7; example_buffer 8; example_buffer 7]
              (example_live example_echo) 1%nat eq_refl eq_refl)
    as (outputs & σ' & Hrun & Hlen & Hmap & _).
  exists outputs, σ'. split_and!; [exact Hrun|exact Hlen|exact Hmap].
Defined.

Lemma ExecuteOnLocalDevices_shape_witness :
  execs (example_live example_echo) !! 5%positive
    = Some (example_exec example_echo) ∧
  ∃ outputs σ',
    PyExecutable_ExecuteOnLocalDevices 5%positive
      [ [example_buffer 7; example_buffer 8];
        [example_buffer 9];
        [example_buffer 7; example_buffer 8; example_buffer 7] ]
      (example_live example_echo) = Ret (OkValue outputs, σ') ∧
    map length outputs = [2; 1; 3] ∧
    map (map buffer) outputs =
      [ [Some 7; Some 8]; [Some 9]; [Some 7; Some 8; Some 7] ]%positive.
Proof.
  split; [reflexivity|].
  destruct (ExecuteOnLocalDevices_shape (RT := example_runtime) 5%positive
              (example_exec example_echo)
              [ [example_buffer 7; example_buffer 8];
                [example_buffer 9];
                [example_buffer 7; example_buffer 8; example_buffer 7] ]
              (example_live example_echo)
              [ [Some 7; Some 8]; [Some 9]; [Some 7; Some 8; Some 7] ]%positive
              1%nat eq_refl eq_refl)
    as (outputs & σ' & Hrun & _ & Hsizes & Hmap).
  exists outputs, σ'. split_and!; [exact Hrun|exact Hsizes|exact Hmap].
Defined.

Lemma engine_failure_propagates_witness :
  execs (example_live example_faulty) !! 5%positive
    = Some (example_exec example_faulty) ∧
  (∃ σ',
     PyExecutable_PjRtExecute 5%positive [Some 7%positive]
       (example_live example_faulty) = Ret (NotOk "device fault", σ') ∧
     read_registry 1 σ' 1%positive = Some [5%positive]) ∧
  (∃ σ',
     PyExecutable_Execute 5%positive [example_buffer 7]
       (example_live example_faulty) = Ret (NotOk "device fault", σ') ∧
     read_registry 1 σ' 1%positive = Some [5%positive]) ∧
  (∃ σ',
     PyExecutable_ExecuteOnLocalDevices 5%positive [[example_buffer 7]]
       (example_live example_faulty) = Ret (NotOk "device fault", σ') ∧
     read_registry 1 σ' 1%positive = Some [5%positive]).
Proof.
  split; [reflexivity|].
  destruct (engine_failure_propagates (RT := example_runtime) 5%positive
              (example_exec example_faulty) (example_live example_faulty)
              "device fault" 1%nat eq_refl)
    as (Hdirect & Hsingle & Hmulti).
  split_and!.
  - destruct (Hdirect [Some 7%positive] eq_refl) as (σ' & Hrun & _ & _ & Hreg).
    exists σ'. split; [exact Hrun|]. by rewrite Hreg.
  - destruct (Hsingle [example_buffer 7] eq_refl) as (σ' & Hrun & _ & _ & Hreg).
    exists σ'. split; [exact Hrun|]. by rewrite Hreg.
  - destruct (Hmulti [[example_buffer 7]] eq_refl)
      as (σ' & Hrun & _ & _ & Hreg).
    exists σ'. split; [exact Hrun|]. by rewrite Hreg.
Defined.

Lemma outputs_share_traceback_witness :
  execs (example_live example_echo) !! 5%positive
    = Some (example_exec example_echo) ∧
  ∃ outputs σ',
    PyExecutable_Execute 5%positive
      [example_buffer 7; example_buffer 8; example_buffer 9]
      (example_live example_echo) = Ret (OkValue outputs, σ') ∧
    length outputs = 3 ∧
    Forall (λ b, traceback b = (1%nat : @Traceback example_runtime)) outputs ∧
    world σ' = (2%nat : @World example_runtime).
Proof.
  split; [reflexivity|].
  destruct (outputs_share_traceback (RT := example_runtime) 5%positive
              (example_exec example_echo) (example_live example_echo)
              1%nat eq_refl)
    as (_ & Hsingle & _).
  destruct (Hsingle [example_buffer 7; example_buffer 8; example_buffer 9]
              [Some 7; Some 8; Some 9]%positive eq_refl)
    as (outputs & σ' & Hrun & Hlen & Hall & Hworld).
  exists outputs, σ'. split_and!; [exact Hrun|exact Hlen|exact Hall|exact Hworld].
Defined.

Lemma execution_preserves_executable_witness :
  execs (example_live example_faulty) !! 5%positive
    = Some (example_exec example_faulty) ∧
  ∃ r σ',
    PyExecutable_Execute 5%positive [example_buffer 7]
      (example_live example_faulty) = Ret (r, σ') ∧
    execs σ' !! 5%positive = Some (example_exec example_faulty) ∧
    clients σ' = clients (example_live example_faulty).
Proof.
  split; [reflexivity|].
  destruct (execution_preserves_executable (RT := example_runtime) 5%positive
              (example_exec example_faulty) (example_live example_faulty)
              eq_refl)
    as (_ & Hsingle & _).
  destruct (Hsingle [example_buffer 7]) as (r & σ' & Hrun & _ & Hc & Hself).
  exists r, σ'. split_and!; [exact Hrun|exact Hself|exact Hc].
Defined.

Lemma LocalDevices_wraps_each_device_witness :
  execs (example_live example_echo) !! 5%positive
    = Some (example_exec example_echo) ∧
  PyExecutable_LocalDevices 5%positive (example_live example_echo) =
  Ret ([(1%positive, Some 11%positive); (1%positive, Some 12%positive)],
       example_live example_echo).
Proof.
  split; [reflexivity|].
  destruct (LocalDevices_wraps_each_device (RT := example_runtime) 5%positive
              (example_exec example_echo) (example_live example_echo) eq_refl)
    as (devices & Hrun & _ & -> & _).
  exact Hrun.
Defined.

(** * The further properties on the concrete stores *)

Lemma example_two_clients_initial : initial example_two_clients.
Proof.
  split_and!; [done..|]. intros c cl Hc.
  unfold example_two_clients in Hc. cbn [clients] in Hc.
  apply lookup_insert_Some in Hc as [[_ <-]|[_ Hc]]; [done|].
  apply lookup_singleton_Some in Hc as [_ <-]. done.
Qed.

Lemma example_interleaved_runs :
  run_trace example_interleaved example_two_clients
  = Ret (tt, example_interleaved_after).
Proof. reflexivity. Qed.

Lemma example_interleaved_after_wf : wf example_interleaved_after.
Proof.
  apply (run_trace_preserves example_interleaved example_two_clients
           example_interleaved_after
           (initial_wf _ example_two_clients_initial) eq_refl
           example_interleaved_runs).
Qed.

Lemma example_survivor (x : addr) :
  x ≠ 5%positive →
  Delete x ∉ [ @New example_runtime 6 2 example_faulty 0%nat None;
               @New example_runtime 5 1 example_echo 0%nat (Some "abc");
               @New example_runtime 8 2 example_echo 0%nat None;
               Delete 5;
               @New example_runtime 5 2 example_probe 0%nat (Some "abcde")
             ]%positive.
Proof.
  intros Hx Hin.
  repeat (apply elem_of_cons in Hin as [Hin|Hin]; [by simplify_eq|]).
  by apply elem_of_nil in Hin.
Qed.

Lemma history_refines_spec_registry_witness :
  initial example_two_clients ∧
  run_trace example_interleaved example_two_clients
    = Ret (tt, example_interleaved_after) ∧
  read_registry 1 example_interleaved_after 1%positive
    = Some [7%positive] ∧
  read_registry 3 example_interleaved_after 2%positive
    = Some [5; 8; 6]%positive.
Proof.
  split; [exact example_two_clients_initial|].
  split; [exact example_interleaved_runs|].
  split.
  - exact (history_refines_spec_registry example_two_clients
             example_interleaved_after example_interleaved 1%positive
             example_two_clients_initial ltac:(eexists; reflexivity)
             example_interleaved_runs 1 ltac:(simpl; lia)).
  - exact (history_refines_spec_registry example_two_clients
             example_interleaved_after example_interleaved 2%positive
             example_two_clients_initial ltac:(eexists; reflexivity)
             example_interleaved_runs 3 ltac:(simpl; lia)).
Defined.

Lemma new_then_delete_restores_witness :
  wf example_interleaved_after ∧ gil example_interleaved_after = true ∧
  execs example_interleaved_after !! 9%positive = None ∧
  ∃ σ1,
    new_PyExecutable 9%positive 2%positive example_echo 0%nat (Some "ab")
      example_interleaved_after = Ret (tt, σ1) ∧
    PyExecutable_delete 9%positive σ1 = Ret (tt, example_interleaved_after).
Proof.
  split; [exact example_interleaved_after_wf|]. split; [reflexivity|].
  split; [reflexivity|].
  exact (new_then_delete_restores example_interleaved_after 9%positive
           2%positive example_echo 0%nat (Some "ab")
           example_interleaved_after_wf eq_refl eq_refl
           ltac:(eexists; reflexivity)).
Defined.

Lemma history_keeps_members_witness :
  wf example_interleaved_after ∧
  run_trace example_sequel example_interleaved_after
    = Ret (tt, example_sequel_after) ∧
  (Delete 5%positive ∉ example_sequel) ∧
  ∃ e',
    execs example_sequel_after !! 5%positive = Some e' ∧
    client_ e' = 2%positive ∧ executable_ e' = example_probe ∧
    fingerprint_ e' = Some "abcde" ∧
    options_ e' = {| untuple_result := true; launch_id := 5 |}.
Proof.
  assert (Hno : Delete 5%positive ∉ example_sequel).
  { intros Hin.
    repeat (apply elem_of_cons in Hin as [Hin|Hin]; [discriminate Hin|]).
    by apply elem_of_nil in Hin. }
  split; [exact example_interleaved_after_wf|]. split; [reflexivity|].
  split; [exact Hno|].
  destruct (history_keeps_members example_interleaved_after
              example_sequel_after example_sequel 5%positive
              (@Build_PyExecutable example_runtime 2%positive example_probe
                 0%nat (Some "abcde")
                 {| untuple_result := true; launch_id := 5 |}
                 nullptr (Some 8%positive))
              example_interleaved_after_wf eq_refl eq_refl eq_refl Hno)
    as (e' & He' & Hc & Hex & _ & Hfp & Hopts).
  exists e'. split_and!; [exact He'|exact Hc|exact Hex|exact Hfp|exact Hopts].
Defined.

Lemma built_executable_runs_as_built_witness :
  wf example_two_clients ∧
  run_trace example_interleaved example_two_clients
    = Ret (tt, example_interleaved_after) ∧
  PyExecutable_Execute 7%positive [example_buffer 21]
    example_interleaved_after =
  Ret (OkValue [@Build_PyBuffer example_runtime 1%positive
                  (Some 4%positive) 1%nat],
       with_world (2%nat : @World example_runtime) example_interleaved_after).
Proof.
  split; [exact (initial_wf _ example_two_clients_initial)|].
  split; [exact example_interleaved_runs|].
  destruct (built_executable_runs_as_built example_two_clients
              example_interleaved_after _ 7%positive 1%positive example_probe
              0%nat (Some "abcd")
              (initial_wf _ example_two_clients_initial) eq_refl
              example_interleaved_runs
              (example_survivor 7%positive ltac:(discriminate)))
    as (_ & Hsingle & _).
  exact (Hsingle [example_buffer 21]).
Defined.

Lemma built_executable_accessors_witness :
  wf example_two_clients ∧
  run_trace example_interleaved example_two_clients
    = Ret (tt, example_interleaved_after) ∧
  PyExecutable_LocalDevices 7%positive example_interleaved_after =
    Ret ([(1%positive, Some 13%positive)], example_interleaved_after) ∧
  PyExecutable_HloModules 7%positive example_interleaved_after =
    Ret (OkValue [tt], example_interleaved_after).
Proof.
  split; [exact (initial_wf _ example_two_clients_initial)|].
  split; [exact example_interleaved_runs|].
  exact (built_executable_accessors example_two_clients
           example_interleaved_after _ 7%positive 1%positive example_probe
           0%nat (Some "abcd")
           (initial_wf _ example_two_clients_initial) eq_refl
           example_interleaved_runs
           (example_survivor 7%positive ltac:(discriminate))).
Defined.

Lemma registry_mutation_needs_lock_witness :
  gil (with_gil false example_interleaved_after) = false ∧
  PyExecutable_ctor 9%positive 1%positive example_echo 0%nat None
    (with_gil false example_interleaved_after) = CheckFailure ∧
  PyExecutable_delete 7%positive (with_gil false example_interleaved_after)
    = CheckFailure.
Proof.
  split; [reflexivity|].
  destruct (registry_mutation_needs_lock
              (with_gil false example_interleaved_after)
              9%positive 1%positive example_echo 0%nat None eq_refl)
    as (Hctor & _).
  destruct (registry_mutation_needs_lock
              (with_gil false example_interleaved_after)
              7%positive 1%positive example_echo 0%nat None eq_refl)
    as (_ & _ & Hdel & _).
  split; [exact Hctor|exact Hdel].
Defined.

Lemma outputs_carry_client_witness :
  execs (example_live example_echo) !! 5%positive
    = Some (example_exec example_echo) ∧
  PyExecutable_ExecuteOnLocalDevices 5%positive
    [[example_buffer 7; example_buffer 8]; []; [example_buffer 9]]
    (example_live example_echo) =
  Ret (OkValue
         [ [ @Build_PyBuffer example_runtime 1%positive (Some 7%positive) 1%nat;
             @Build_PyBuffer example_runtime 1%positive (Some 8%positive) 1%nat ];
           [];
           [ @Build_PyBuffer example_runtime 1%positive (Some 9%positive) 1%nat ] ],
       with_world (2%nat : @World example_runtime) (example_live example_echo)) ∧
  Forall (Forall (λ b, pb_client b = 1%positive))
    [ [ @Build_PyBuffer example_runtime 1%positive (Some 7%positive) 1%nat;
        @Build_PyBuffer example_runtime 1%positive (Some 8%positive) 1%nat ];
      [];
      [ @Build_PyBuffer example_runtime 1%positive (Some 9%positive) 1%nat ] ].
Proof.
  split; [reflexivity|]. split; [reflexivity|].
  destruct (outputs_carry_client (RT := example_runtime) 5%positive
              (example_exec example_echo) (example_live example_echo) eq_refl)
    as (_ & _ & Hmulti).
  exact (Hmulti
           [[example_buffer 7; example_buffer 8]; []; [example_buffer 9]]
           _ _ eq_refl).
Defined.

Lemma call_changes_device_state_only_witness :
  gil (example_live example_faulty) = true ∧
  execs (example_live example_faulty) !! 5%positive
    = Some (example_exec example_faulty) ∧
  PyExecutable_Execute 5%positive [example_buffer 7]
    (example_live example_faulty) =
  Ret (NotOk "device fault",
       with_world (1%nat : @World example_runtime)
         (example_live example_faulty)).
Proof.
  split; [reflexivity|]. split; [reflexivity|].
  destruct (call_changes_device_state_only (RT := example_runtime) 5%positive
              (example_exec example_faulty) (example_live example_faulty)
              eq_refl eq_refl)
    as (_ & Hsingle & _).
  exact (Hsingle [example_buffer 7]).
Defined.

Lemma neighbours_point_back_witness :
  initial example_two_clients ∧
  run_trace example_interleaved example_two_clients
    = Ret (tt, example_interleaved_after) ∧
  (∃ en, execs example_interleaved_after !! 6%positive = Some en ∧
         prev_ en = Some 8%positive) ∧
  (∃ ep, execs example_interleaved_after !! 5%positive = Some ep ∧
         next_ ep = Some 8%positive) ∧
  ∃ cl, clients example_interleaved_after !! 2%positive = Some cl ∧
        executables_ cl ≠ Some 8%positive.
Proof.
  split; [exact example_two_clients_initial|].
  split; [exact example_interleaved_runs|].
  destruct (neighbours_point_back example_two_clients
              example_interleaved_after example_interleaved 8%positive
              (@Build_PyExecutable example_runtime 2%positive example_echo
                 0%nat None
                 {| untuple_result := true; launch_id := 0 |}
                 (Some 5%positive) (Some 6%positive))
              example_two_clients_initial example_interleaved_runs eq_refl)
    as (Hnext & Hprev & cl & Hcl & Hhead).
  split_and!.
  - destruct (Hnext 6%positive eq_refl) as (en & Hen & Hp & _). by exists en.
  - destruct (Hprev 5%positive eq_refl) as (ep & Hep & Hn & _). by exists ep.
  - exists cl. split; [exact Hcl|]. intros Hh. apply Hhead in Hh.
    discriminate Hh.
Defined.
